(** * tflearn.objectives: loss functions over a model of the tensor runtime

    The module [tflearn/objectives.py] builds five scalar losses out of
    TensorFlow operations and exposes them through a name lookup, [get].

    The file has two models of tensors.

    - The first one takes the elements to be real numbers and the arithmetic
      to be exact.  It serves the formulas of the losses: which expression
      each objective computes, and what follows from it.  An operation that
      leaves real arithmetic (the logarithm of a non-positive number, the
      mean of zero elements, where TensorFlow produces an infinity or a NaN)
      has no result there, written [None].  Operands of different shapes,
      which TensorFlow broadcasts or rejects, have no result either: the
      objectives are documented for tensors of one shape.

    - The second one, [IEEE], follows the floating-point values: a tensor
      has a dtype, its elements are finite numbers, infinities or NaN, every
      arithmetic operation rounds its result to the dtype and obeys the
      rules of IEEE 754 on the special values, and an operation on operands
      of different dtypes raises an error.  The rounding itself is a
      parameter, of which only monotonicity, exactness at 0 and 1 and
      idempotence are assumed, so that underflow and overflow are covered.
      It serves [mean_square], [hinge_loss] and [categorical_crossentropy],
      whose behaviour on non-finite values, on rounding and on dtypes
      matters to the properties below. *)

From Stdlib Require Import Reals Lra Lia.
From stdpp Require Import base option list strings gmap.

Open Scope R_scope.

(** ** Tensors *)

Record Tensor : Type := mkTensor { shape : list nat; data : list R }.

(** Number of elements a shape announces. *)
Definition numel (s : list nat) : nat := foldr Nat.mul 1%nat s.

(** The invariant of the runtime: a tensor holds as many elements as its
    shape says. *)
Definition wf (t : Tensor) : Prop := length (data t) = numel (shape t).

Definition rsum (l : list R) : R := foldr Rplus 0 l.

(** Mean of a list of reals; the mean of no element is 0/0. *)
Definition mean_list (l : list R) : option R :=
  match l with
  | [] => None
  | _ => Some (rsum l / INR (length l))
  end.

(** All the dimensions but the last one. *)
Definition lead_dims (s : list nat) : list nat := take (length s - 1) s.

(** [rows_of k n l] cuts [l] into [k] consecutive rows of [n] elements. *)
Fixpoint rows_of {A : Type} (k n : nat) (l : list A) : list (list A) :=
  match k with
  | O => []
  | S k' => take n l :: rows_of k' n (drop n l)
  end.

(** The slices of a tensor along its last axis; a rank-0 tensor has no
    last axis, hence no rows. *)
Definition rows (t : Tensor) : list (list R) :=
  match last (shape t) with
  | Some n => rows_of (numel (lead_dims (shape t))) n (data t)
  | None => []
  end.

(** Partial real operations. *)
Definition div_elem (x s : R) : option R :=
  if Req_dec_T s 0 then None else Some (x / s).

Definition log_elem (x : R) : option R :=
  if Rlt_dec 0 x then Some (ln x) else None.

(** ** The TensorFlow operations the module calls *)

Module tf.

  (** Elementwise operation on two tensors of the same shape. *)
Definition binop (f : R -> R -> R) (a b : Tensor) : option Tensor :=
    if decide (shape a = shape b)
    then Some (mkTensor (shape a) (zip_with f (data a) (data b)))
    else None.

Definition unop (f : R -> R) (a : Tensor) : Tensor :=
    mkTensor (shape a) (f <$> data a).

Definition sub : Tensor -> Tensor -> option Tensor := binop Rminus.
Definition mul : Tensor -> Tensor -> option Tensor := binop Rmult.

  (** [c - t] and [tf.maximum(t, c)] for a Python float [c], which is
      broadcast over every element of [t]. *)
Definition rsub_scalar (c : R) (t : Tensor) : Tensor := unop (fun x => c - x) t.
Definition maximum_scalar (t : Tensor) (c : R) : Tensor := unop (fun x => Rmax x c) t.

Definition square : Tensor -> Tensor := unop (fun x => x * x).

(** [tf.reduce_mean(t)] without axis: the mean of all the elements. *)
Definition reduce_mean (t : Tensor) : option R := mean_list (data t).

Module nn.

Definition relu (x : R) : R := if Rle_dec 0 x then x else 0.

    (** [tf.nn.sigmoid_cross_entropy_with_logits(logits, targets)]:
        [relu(x) - x * z + log(1 + exp(-abs(x)))] on every element. *)
Definition sigmoid_elem (x z : R) : option R :=
      l ← log_elem (1 + exp (- Rabs x)); Some (relu x - x * z + l).

Definition sigmoid_cross_entropy_with_logits (logits targets : Tensor)
      : option Tensor :=
      if decide (shape logits = shape targets)
      then mkTensor (shape logits) <$>
             mapM (fun xz => sigmoid_elem xz.1 xz.2)
                  (zip (data logits) (data targets))
      else None.

    (** Largest element of a row (of its first element onwards). *)
Definition row_max (l : list R) : R :=
      match l with
      | [] => 0
      | x :: l' => foldr Rmax x l'
      end.

    (** [tf.nn.softmax_cross_entropy_with_logits(logits, labels)]: the
        fused kernel.  Each row of logits is shifted by its maximum [m];
        the loss of the row is the sum over the classes of
        [label * (log (sum_k exp (x_k - m)) - (x - m))]. *)
Definition xent_row (xs ts : list R) : option R :=
      let m := row_max xs in
      let s := rsum ((fun x => exp (x - m)) <$> xs) in
      rsum <$> mapM (fun xt => l ← log_elem s; Some (xt.2 * (l - (xt.1 - m))))
                    (zip xs ts).

Definition softmax_cross_entropy_with_logits (logits labels : Tensor)
      : option Tensor :=
      if decide (shape logits = shape labels)
      then mkTensor (lead_dims (shape logits)) <$>
             mapM (fun r => xent_row r.1 r.2) (zip (rows logits) (rows labels))
      else None.

End nn.

End tf.

(** ** The objectives of [tflearn/objectives.py] *)

Definition softmax_categorical_crossentropy (y_pred y_true : Tensor) : option R :=
  l ← tf.nn.softmax_cross_entropy_with_logits y_pred y_true;
  tf.reduce_mean l.

Definition binary_crossentropy (y_pred y_true : Tensor) : option R :=
  l ← tf.nn.sigmoid_cross_entropy_with_logits y_pred y_true;
  tf.reduce_mean l.

Definition mean_square (y_pred y_true : Tensor) : option R :=
  d ← tf.sub y_pred y_true;
  tf.reduce_mean (tf.square d).

Definition hinge_loss (y_pred y_true : Tensor) : option R :=
  m ← tf.mul y_true y_pred;
  tf.reduce_mean (tf.maximum_scalar (tf.rsub_scalar 1 m) 0).

(** ** Name lookup *)

Inductive objective : Type :=
  | SoftmaxCategoricalCrossentropy
  | CategoricalCrossentropy
  | BinaryCrossentropy
  | MeanSquare
  | HingeLoss.

(** Function objects: the objectives, the two lookup functions the module
    namespace holds, and functions defined elsewhere. *)
Inductive pyfunc : Type :=
  | Objective (o : objective)
  | Get
  | GetFromModule
  | Foreign (qualname : string).

(** The objects a module namespace binds. *)
Inductive pyobj : Type :=
  | Function (f : pyfunc)
  | PyModule (name : string)
  | Value (repr : string).

(** [get] takes a name or an object that is already callable. *)
Inductive identifier : Type :=
  | Name (s : string)
  | Callable (f : pyfunc).

Inductive lookup : Type :=
  | Found (o : pyobj)
  | Invalid (module_name ident : string).

Definition failed (r : lookup) : Prop :=
  match r with
  | Found _ => False
  | Invalid _ _ => True
  end.

(** Modelled from the spec: [get_from_module] is defined in
    [tflearn/utils.py], which is not part of the sources at hand.  It
    resolves a name by consulting the symbol table it is given, passes an
    already-callable object through, and fails with an error that names the
    category and the identifier when the name is unknown. *)
Definition get_from_module (ident : identifier)
    (module_params : gmap string pyobj) (module_name : string) : lookup :=
  match ident with
  | Name s =>
      match module_params !! s with
      | Some o => Found o
      | None => Invalid module_name s
      end
  | Callable f => Found (Function f)
  end.

Section Globals.
  (** The attributes the interpreter sets on every module before its body
      runs ([__name__], [__doc__], ...). *)
Variable module_attrs : gmap string pyobj.

  (** [globals()] once the module body has run: every [import] and [def]
      statement binds its name, in the order of the file. *)
Definition globals : gmap string pyobj :=
    <["hinge_loss" := Function (Objective HingeLoss)]>
    (<["mean_square" := Function (Objective MeanSquare)]>
    (<["binary_crossentropy" := Function (Objective BinaryCrossentropy)]>
    (<["categorical_crossentropy" := Function (Objective CategoricalCrossentropy)]>
    (<["softmax_categorical_crossentropy" :=
         Function (Objective SoftmaxCategoricalCrossentropy)]>
    (<["get" := Function Get]>
    (<["get_from_module" := Function GetFromModule]>
    (<["_FLOATX" := Value "_FLOATX"]>
    (<["_EPSILON" := Value "_EPSILON"]>
    (<["tf" := PyModule "tensorflow"]>
    (<["absolute_import" := Value "absolute_import"]>
    (<["print_function" := Value "print_function"]>
    (<["division" := Value "division"]>
     module_attrs)))))))))))).

Definition get (ident : identifier) : lookup :=
    get_from_module ident globals "objective".
End Globals.

(** The names of the objective functions. *)
Definition objective_names : list string :=
  ["softmax_categorical_crossentropy"; "categorical_crossentropy";
   "binary_crossentropy"; "mean_square"; "hinge_loss"].

(** The name each objective is defined under. *)
Definition objective_name (o : objective) : string :=
  match o with
  | SoftmaxCategoricalCrossentropy => "softmax_categorical_crossentropy"
  | CategoricalCrossentropy => "categorical_crossentropy"
  | BinaryCrossentropy => "binary_crossentropy"
  | MeanSquare => "mean_square"
  | HingeLoss => "hinge_loss"
  end.

(** ** The formulas of the specification *)

Module Spec.

Definition softmax (xs : list R) : option (list R) :=
    mapM (fun x => div_elem (exp x) (rsum (exp <$> xs))) xs.

  (** [- sum_over_classes (true * log (softmax pred))] *)
Definition naive_row (xs ts : list R) : option R :=
    p ← softmax xs;
    l ← mapM log_elem p;
    Some (- rsum (zip_with Rmult ts l)).

Definition softmax_categorical_crossentropy (y_pred y_true : Tensor)
    : option R :=
    ces ← mapM (fun r => naive_row r.1 r.2) (zip (rows y_pred) (rows y_true));
    mean_list ces.

  (** [max(x, 0) - x * z + log(1 + exp(-|x|))] *)
Definition sigmoid_formula (x z : R) : R :=
    Rmax x 0 - x * z + ln (1 + exp (- Rabs x)).

Definition binary_crossentropy (y_pred y_true : Tensor) : option R :=
    mean_list (zip_with sigmoid_formula (data y_pred) (data y_true)).

  (** [max(1 - y_true * y_pred, 0)] *)
Definition hinge_elem (p t : R) : R := Rmax (1 - t * p) 0.

Definition hinge_loss (y_pred y_true : Tensor) : option R :=
    mean_list (zip_with hinge_elem (data y_pred) (data y_true)).

Definition square_elem (p t : R) : R := (p - t) * (p - t).

End Spec.

(** * Floating-point tensors *)

Module IEEE.

(** The two dtypes the docstrings admit. *)
Inductive DType : Type := float32 | float64.

#[global] Instance DType_eq_dec : EqDecision DType.
Proof. solve_decision. Defined.

(** A floating-point value: a finite number, an infinity or NaN.  Zeros are
    not signed. *)
Inductive fval : Type :=
  | Fin (r : R)
  | PInf
  | NInf
  | NaN.

Definition is_finite (x : fval) : Prop :=
  match x with
  | Fin _ => True
  | _ => False
  end.

(** [x >= 0]: a finite number that is not negative, or [+inf]. *)
Definition nonneg (x : fval) : Prop :=
  match x with
  | Fin r => 0 <= r
  | PInf => True
  | _ => False
  end.

(** The order of the values that are not NaN. *)
Definition fle (x y : fval) : Prop :=
  match x, y with
  | NaN, _ | _, NaN => False
  | NInf, _ => True
  | _, PInf => True
  | Fin a, Fin b => a <= b
  | _, _ => False
  end.

(** What is assumed of the rounding of a real result to a dtype: it is
    exact at 0 and 1, monotone (hence never NaN), and leaves alone the
    numbers it produces.  Rounding to nearest has these properties, with
    its underflow to 0 and its overflow to an infinity. *)
Record rounding (rnd : DType -> R -> fval) : Prop := {
  rnd_zero : forall d, rnd d 0 = Fin 0;
  rnd_one : forall d, rnd d 1 = Fin 1;
  rnd_mono : forall d a b, a <= b -> fle (rnd d a) (rnd d b);
  rnd_idem : forall d a b, rnd d a = Fin b -> rnd d b = Fin b
}.

(** The rounding that never rounds: every real is a number of every dtype. *)
Definition exact : DType -> R -> fval := fun _ r => Fin r.

(** A rounding that overflows beyond [big] and flushes to zero below
    [tiny], and is exact in between: the coarsest picture of a binary
    format that has overflow and underflow. *)
Definition coarse (tiny big : R) : DType -> R -> fval := fun _ r =>
  if Rlt_dec big r then PInf
  else if Rlt_dec r (- big) then NInf
  else if Rlt_dec (- tiny) r
       then if Rlt_dec r tiny then Fin 0 else Fin r
       else Fin r.

Definition fneg (x : fval) : fval :=
  match x with
  | Fin r => Fin (- r)
  | PInf => NInf
  | NInf => PInf
  | NaN => NaN
  end.

(** [max] and [min] as the elementwise kernels compute them; a NaN operand
    gives NaN. *)
Definition fmax (x y : fval) : fval :=
  match x, y with
  | NaN, _ | _, NaN => NaN
  | PInf, _ | _, PInf => PInf
  | NInf, z | z, NInf => z
  | Fin a, Fin b => Fin (Rmax a b)
  end.

Definition fmin (x y : fval) : fval :=
  match x, y with
  | NaN, _ | _, NaN => NaN
  | NInf, _ | _, NInf => NInf
  | PInf, z | z, PInf => z
  | Fin a, Fin b => Fin (Rmin a b)
  end.

Section Arithmetic.
Variable rnd : DType -> R -> fval.
Variable d : DType.

Definition fadd (x y : fval) : fval :=
  match x, y with
  | NaN, _ | _, NaN => NaN
  | PInf, NInf | NInf, PInf => NaN
  | PInf, _ | _, PInf => PInf
  | NInf, _ | _, NInf => NInf
  | Fin a, Fin b => rnd d (a + b)
  end.

Definition fsub (x y : fval) : fval := fadd x (fneg y).

(** An infinity of the sign of [a], NaN when [a] is 0. *)
Definition inf_of_sign (a : R) : fval :=
  if Rlt_dec 0 a then PInf else if Rlt_dec a 0 then NInf else NaN.

Definition fmul (x y : fval) : fval :=
  match x, y with
  | NaN, _ | _, NaN => NaN
  | Fin a, Fin b => rnd d (a * b)
  | Fin a, PInf | PInf, Fin a => inf_of_sign a
  | Fin a, NInf | NInf, Fin a => inf_of_sign (- a)
  | PInf, PInf | NInf, NInf => PInf
  | PInf, NInf | NInf, PInf => NInf
  end.

(** A division by a zero gives an infinity of the sign of the dividend, and
    NaN when the dividend is a zero too; the zero is taken as [+0]. *)
Definition fdiv (x y : fval) : fval :=
  match x, y with
  | NaN, _ | _, NaN => NaN
  | (PInf | NInf), (PInf | NInf) => NaN
  | Fin _, (PInf | NInf) => Fin 0
  | PInf, Fin b => if Rlt_dec b 0 then NInf else PInf
  | NInf, Fin b => if Rlt_dec b 0 then PInf else NInf
  | Fin a, Fin b => if Req_dec_T b 0 then inf_of_sign a else rnd d (a / b)
  end.

Definition flog (x : fval) : fval :=
  match x with
  | NaN | NInf => NaN
  | PInf => PInf
  | Fin c =>
      if Rlt_dec 0 c then rnd d (ln c)
      else if Rlt_dec c 0 then NaN else NInf
  end.

Definition fsum (l : list fval) : fval := foldr fadd (Fin 0) l.

(** The sum of the elements divided by their number; with no element it is
    0/0. *)
Definition fmean (l : list fval) : fval :=
  fdiv (fsum l) (rnd d (INR (length l))).

(** The conversion of a value to the dtype. *)
Definition fround (x : fval) : fval :=
  match x with
  | Fin r => rnd d r
  | _ => x
  end.

End Arithmetic.

Record Tensor : Type :=
  mkTensor { dtype : DType; shape : list nat; data : list fval }.

Definition wf (t : Tensor) : Prop := length (data t) = numel (shape t).

(** Every finite element of the tensor is a number of its dtype. *)
Definition typed (rnd : DType -> R -> fval) (t : Tensor) : Prop :=
  Forall (fun x => match x with
                   | Fin r => rnd (dtype t) r = Fin r
                   | _ => True
                   end) (data t).

Definition rows (t : Tensor) : list (list fval) :=
  match last (shape t) with
  | Some n => rows_of (numel (lead_dims (shape t))) n (data t)
  | None => []
  end.

(** What building an operation gives: a result, or one of the two errors
    TensorFlow raises on operands it does not accept.  [ValueError] also
    stands for the shapes the model does not cover (a broadcast other than
    that of a row sum, a reduction of a tensor of rank 0).  On operands of
    different dtypes an operation raises [TypeError]; when it is written
    as a Python operator, some versions of TensorFlow raise [ValueError]
    instead, and the properties below that meet this case only say that
    there is no result. *)
Inductive outcome (A : Type) : Type :=
  | Ok (a : A)
  | TypeError
  | ValueError.

Arguments Ok {A} a.
Arguments TypeError {A}.
Arguments ValueError {A}.

#[global] Instance outcome_ret : MRet outcome := fun A a => Ok a.

#[global] Instance outcome_bind : MBind outcome := fun A B f x =>
  match x with
  | Ok a => f a
  | TypeError => TypeError
  | ValueError => ValueError
  end.

(** ** The TensorFlow operations, on floating-point tensors *)

Module tf.

Section Ops.
Variable rnd : DType -> R -> fval.

(** Elementwise operation on two tensors of one dtype and one shape. *)
Definition binop (f : DType -> fval -> fval -> fval) (a b : Tensor)
  : outcome Tensor :=
  if decide (dtype a = dtype b)
  then if decide (shape a = shape b)
       then Ok (mkTensor (dtype a) (shape a)
                         (zip_with (f (dtype a)) (data a) (data b)))
       else ValueError
  else TypeError.

Definition unop (f : DType -> fval -> fval) (a : Tensor) : Tensor :=
  mkTensor (dtype a) (shape a) (f (dtype a) <$> data a).

Definition sub : Tensor -> Tensor -> outcome Tensor := binop (fsub rnd).
Definition mul : Tensor -> Tensor -> outcome Tensor := binop (fmul rnd).
Definition square : Tensor -> Tensor := unop (fun d x => fmul rnd d x x).
Definition neg : Tensor -> Tensor := unop (fun _ => fneg).
Definition log : Tensor -> Tensor := unop (flog rnd).

(** [c - t] and [tf.maximum(t, c)] for a Python float [c], which is
    converted to the dtype of [t] and broadcast over its elements. *)
Definition rsub_scalar (c : R) : Tensor -> Tensor :=
  unop (fun d x => fsub rnd d (rnd d c) x).
Definition maximum_scalar (t : Tensor) (c : R) : Tensor :=
  unop (fun d x => fmax x (rnd d c)) t.

(** [tf.cast(x, dtype)] of a Python float: a tensor of rank 0. *)
Definition cast (x : fval) (d : DType) : Tensor :=
  mkTensor d [] [fround rnd d x].

(** [tf.clip_by_value(t, lo, hi)] is [maximum(minimum(t, hi), lo)]; the
    two bounds must be of the dtype of [t]. *)
Definition clip_by_value (t clip_value_min clip_value_max : Tensor)
  : outcome Tensor :=
  if decide (dtype clip_value_min = dtype t /\ dtype clip_value_max = dtype t)
  then match data clip_value_min, data clip_value_max with
       | [lo], [hi] => Ok (unop (fun _ x => fmax (fmin x hi) lo) t)
       | _, _ => ValueError
       end
  else TypeError.

(** [tf.reduce_sum(t, reduction_indices, keep_dims)], for the one use the
    module makes of it: the reduction of the last axis.  With [keep_dims]
    the reduced axis stays, with length 1. *)
Definition reduce_sum (t : Tensor) (reduction_indices : Z) (keep_dims : bool)
  : outcome Tensor :=
  match last (shape t) with
  | Some _ =>
      if decide (reduction_indices = Z.of_nat (length (shape t)) - 1)%Z
      then Ok (mkTensor (dtype t)
                 (if keep_dims then lead_dims (shape t) ++ [1%nat]
                  else lead_dims (shape t))
                 (fsum rnd (dtype t) <$> rows t))
      else ValueError
  | None => ValueError
  end.

(** [a / b].  The divisor either has one element per row of [a] (shape
    [lead ++ [1]], stretched along the last axis) or the shape of [a]. *)
Definition div (a b : Tensor) : outcome Tensor :=
  if decide (dtype a = dtype b)
  then
    if decide (shape b = lead_dims (shape a) ++ [1%nat])
    then Ok (mkTensor (dtype a) (shape a)
               (concat (zip_with
                          (fun row s => (fun x => fdiv rnd (dtype a) x s) <$> row)
                          (rows a) (data b))))
    else if decide (shape a = shape b)
    then Ok (mkTensor (dtype a) (shape a)
               (zip_with (fdiv rnd (dtype a)) (data a) (data b)))
    else ValueError
  else TypeError.

(** [tf.reduce_mean(t)] without axis: the mean of all the elements. *)
Definition reduce_mean (t : Tensor) : fval := fmean rnd (dtype t) (data t).

End Ops.

End tf.

(** ** The objectives, on floating-point tensors *)

(** [len(t.get_shape()) - 1] *)
Definition last_axis (t : Tensor) : Z := Z.of_nat (length (shape t)) - 1.

Section Objectives.
Variable rnd : DType -> R -> fval.
(** [_EPSILON] and [_FLOATX] are imported from [tflearn/config.py];
    [_EPSILON] is a Python float, as is [1. - _EPSILON], which Python
    computes in double precision before the cast. *)
Variable _EPSILON : R.
Variable _FLOATX : DType.

Definition mean_square (y_pred y_true : Tensor) : outcome fval :=
  d ← tf.sub rnd y_pred y_true;
  Ok (tf.reduce_mean rnd (tf.square rnd d)).

Definition hinge_loss (y_pred y_true : Tensor) : outcome fval :=
  m ← tf.mul rnd y_true y_pred;
  Ok (tf.reduce_mean rnd
        (tf.maximum_scalar rnd (tf.rsub_scalar rnd 1 m) 0)).

Definition categorical_crossentropy (y_pred y_true : Tensor) : outcome fval :=
  s ← tf.reduce_sum rnd y_pred (last_axis y_pred) true;
  y_pred1 ← tf.div rnd y_pred s;
  (* manual computation of crossentropy *)
  y_pred2 ← tf.clip_by_value y_pred1
              (tf.cast rnd (Fin _EPSILON) _FLOATX)
              (tf.cast rnd (fsub rnd float64 (Fin 1) (Fin _EPSILON)) _FLOATX);
  p ← tf.mul rnd y_true (tf.log rnd y_pred2);
  r ← tf.reduce_sum rnd p (last_axis y_pred2) false;
  let cross_entropy := tf.neg r in
  Ok (tf.reduce_mean rnd cross_entropy).

(** The formula [categorical_crossentropy] is compared with: the four
    steps of the specification, computed row by row in the dtype
    [_FLOATX].  The bounds of the clipping are [epsilon] and
    [1 - epsilon] as the dtype has them. *)
Definition lower_bound : fval := fround rnd _FLOATX (Fin _EPSILON).
Definition upper_bound : fval :=
  fround rnd _FLOATX (fsub rnd float64 (Fin 1) (Fin _EPSILON)).

(** The four steps on one row: (a) the row divided by its sum, (b) clipped
    into the bounds, and the logarithm of that; *)
Definition log_probs (p : list fval) : list fval :=
  let lo := lower_bound in
  let hi := upper_bound in
  let s := fsum rnd _FLOATX p in
  let q := (fun x => fdiv rnd _FLOATX x s) <$> p in
  let c := (fun x => fmax (fmin x hi) lo) <$> q in
  flog rnd _FLOATX <$> c.

(** (c) minus the sum of [true * log]. *)
Definition row_crossentropy (p t : list fval) : fval :=
  fneg (fsum rnd _FLOATX (zip_with (fmul rnd _FLOATX) t (log_probs p))).

(** (d) the mean over the rows. *)
Definition four_steps (y_pred y_true : Tensor) : fval :=
  fmean rnd _FLOATX (zip_with row_crossentropy (rows y_pred) (rows y_true)).

End Objectives.

(** [y_true * y_pred] in exact arithmetic: the product of two numbers, and
    an infinity or NaN by the rules of IEEE 754 otherwise. *)
Definition exact_product (t p : fval) : fval := fmul exact float64 t p.

(** The number a finite value stands for. *)
Definition real_of (x : fval) : R :=
  match x with
  | Fin r => r
  | _ => 0
  end.

(** A finite number that is not negative. *)
Definition fin_nonneg (x : fval) : Prop :=
  match x with
  | Fin r => 0 <= r
  | _ => False
  end.

(** Tensors for the examples: a batch without rows, [[[inf]]], [[[1.]]],
    [[[0.5, 0.5]]] and [[[1., 0.]]]. *)
Definition empty_batch : Tensor := mkTensor float32 [0%nat; 2%nat] [].
Definition inf_1x1 : Tensor := mkTensor float32 [1%nat; 1%nat] [PInf].
Definition unit_1x1 (d : DType) : Tensor := mkTensor d [1%nat; 1%nat] [Fin 1].
Definition p_1x2 (d : DType) : Tensor :=
  mkTensor d [1%nat; 2%nat] [Fin (1 / 2); Fin (1 / 2)].
Definition t_1x2 (d : DType) : Tensor :=
  mkTensor d [1%nat; 2%nat] [Fin 1; Fin 0].

End IEEE.

(** ** Tensors used in the examples *)

(** The batch with no example: shape [[0; 2]]. *)
Definition empty_batch : Tensor := mkTensor [0%nat; 2%nat] [].

(** [[[0.5]]] and [[[1.0]]] *)
Definition half_1x1 : Tensor := mkTensor [1%nat; 1%nat] [1 / 2].
Definition one_1x1 : Tensor := mkTensor [1%nat; 1%nat] [1].

(** ** Sums and means *)

Lemma rsum_nonneg (l : list R) : Forall (fun x => 0 <= x) l -> 0 <= rsum l.
Proof.
  induction 1 as [|x l Hx _ IH]; simpl; lra.
Qed.

Lemma mean_list_is_Some (l : list R) :
  l <> [] -> mean_list l = Some (rsum l / INR (length l)).
Proof. destruct l; [congruence | reflexivity]. Qed.

Lemma INR_length_pos (l : list R) : l <> [] -> 0 < INR (length l).
Proof.
  intros Hl. apply lt_0_INR. destruct l; [congruence | simpl; lia].
Qed.

Lemma mean_list_nonneg (l : list R) :
  l <> [] -> Forall (fun x => 0 <= x) l ->
  exists v, mean_list l = Some v /\ 0 <= v.
Proof.
  intros Hl Hpos. exists (rsum l / INR (length l)). split.
  - by apply mean_list_is_Some.
  - apply Rmult_le_pos; [by apply rsum_nonneg|].
    left. apply Rinv_0_lt_compat. by apply INR_length_pos.
Qed.

Lemma zip_with_nil_inv_same_length {A B C} (f : A -> B -> C) (l : list A) (k : list B) :
  length l = length k -> l <> [] -> zip_with f l k <> [].
Proof. destruct l, k; simpl; congruence. Qed.

(** ** Elementwise operations *)

Lemma binop_same_shape (f : R -> R -> R) (a b : Tensor) :
  shape a = shape b ->
  tf.binop f a b = Some (mkTensor (shape a) (zip_with f (data a) (data b))).
Proof. intros Hs. unfold tf.binop. by rewrite decide_True. Qed.

Lemma binop_shape_mismatch (f : R -> R -> R) (a b : Tensor) :
  shape a <> shape b -> tf.binop f a b = None.
Proof. intros Hs. unfold tf.binop. by rewrite decide_False. Qed.

Lemma fmap_zip_with_flip (g : R -> R) (f h : R -> R -> R) (l k : list R) :
  (forall x y, g (f x y) = h y x) ->
  g <$> zip_with f l k = zip_with h k l.
Proof.
  intros Hg. revert k. induction l as [|x l IH]; intros [|y k]; simpl; try done.
  by rewrite Hg, IH.
Qed.


Lemma wf_same_length (a b : Tensor) :
  wf a -> wf b -> shape a = shape b -> length (data a) = length (data b).
Proof. unfold wf. intros Ha Hb Hs. by rewrite Ha, Hb, Hs. Qed.

(** ** mean_square *)

Lemma mean_square_formula (y_pred y_true : Tensor) :
  shape y_pred = shape y_true ->
  mean_square y_pred y_true =
  mean_list (zip_with Spec.square_elem (data y_pred) (data y_true)).
Proof.
  intros Hs. unfold mean_square, tf.sub. rewrite binop_same_shape by done.
  simpl. unfold tf.reduce_mean, tf.square, tf.unop. simpl. f_equal.
  revert Hs. generalize (data y_pred) (data y_true). clear.
  induction l as [|x l IH]; intros [|y k] Hs; simpl; try done.
  unfold Spec.square_elem at 1. f_equal. by apply IH.
Qed.

(** ** hinge_loss *)

Lemma hinge_loss_formula (y_pred y_true : Tensor) :
  shape y_pred = shape y_true ->
  hinge_loss y_pred y_true = Spec.hinge_loss y_pred y_true.
Proof.
  intros Hs. unfold hinge_loss, tf.mul. rewrite binop_same_shape by done.
  simpl. unfold tf.reduce_mean, Spec.hinge_loss. simpl. f_equal.
  rewrite <- list_fmap_compose. by apply fmap_zip_with_flip.
Qed.

(** C5: for tensors of the same shape [hinge_loss] is the mean over all
    elements of [max(1 - y_true * y_pred, 0)]; and
    [hinge_loss([[0.5]], [[1.0]])] returns [0.5]. *)
Theorem hinge_loss_mean_of_margins :
  (forall y_pred y_true : Tensor,
      shape y_pred = shape y_true ->
      hinge_loss y_pred y_true =
      mean_list (zip_with (fun p t => Rmax (1 - t * p) 0)
                          (data y_pred) (data y_true)))
  /\ hinge_loss half_1x1 one_1x1 = Some (1 / 2).
Proof.
  split.
  - intros y_pred y_true Hs. by rewrite hinge_loss_formula.
  - rewrite hinge_loss_formula by done.
    unfold Spec.hinge_loss, Spec.hinge_elem. simpl. f_equal.
    unfold Rmax. destruct (Rle_dec _ _); lra.
Qed.

Lemma hinge_loss_mean_of_margins_witness :
  hinge_loss (mkTensor [2%nat] [3; -1]) (mkTensor [2%nat] [1; -1]) =
  mean_list (zip_with (fun p t => Rmax (1 - t * p) 0) [3; -1] [1; -1]).
Proof.
  apply (proj1 hinge_loss_mean_of_margins
               (mkTensor [2%nat] [3; -1]) (mkTensor [2%nat] [1; -1])).
  reflexivity.
Defined.




(** ** binary_crossentropy *)

Lemma mapM_zip_total {A B C} (g : A -> B -> option C) (f : A -> B -> C)
    (l : list A) (k : list B) :
  (forall x y, g x y = Some (f x y)) ->
  mapM (fun xy => g xy.1 xy.2) (zip l k) = Some (zip_with f l k).
Proof.
  intros Hg. apply mapM_Some_2. revert k.
  induction l as [|x l IH]; intros [|y k]; simpl; constructor; auto.
Qed.

Lemma log_elem_pos (x : R) : 0 < x -> log_elem x = Some (ln x).
Proof. intros Hx. unfold log_elem. by destruct (Rlt_dec 0 x). Qed.

Lemma relu_max (x : R) : tf.nn.relu x = Rmax x 0.
Proof.
  unfold tf.nn.relu, Rmax.
  destruct (Rle_dec 0 x), (Rle_dec x 0); lra.
Qed.

Lemma sigmoid_elem_formula (x z : R) :
  tf.nn.sigmoid_elem x z = Some (Spec.sigmoid_formula x z).
Proof.
  unfold tf.nn.sigmoid_elem, Spec.sigmoid_formula.
  rewrite log_elem_pos.
  - simpl. by rewrite relu_max.
  - pose proof (exp_pos (- Rabs x)). lra.
Qed.

Lemma binary_crossentropy_stable (y_pred y_true : Tensor) :
  shape y_pred = shape y_true ->
  binary_crossentropy y_pred y_true = Spec.binary_crossentropy y_pred y_true.
Proof.
  intros Hs.
  unfold binary_crossentropy, tf.nn.sigmoid_cross_entropy_with_logits.
  rewrite decide_True by done.
  rewrite (mapM_zip_total _ Spec.sigmoid_formula) by apply sigmoid_elem_formula.
  reflexivity.
Qed.

(** C3: for tensors of the same shape [binary_crossentropy] is the mean
    over all elements of [max(x, 0) - x * z + log(1 + exp(-|x|))], with [x]
    the element of [y_pred] and [z] that of [y_true]. *)
Theorem binary_crossentropy_formula (y_pred y_true : Tensor) :
  shape y_pred = shape y_true ->
  binary_crossentropy y_pred y_true =
  mean_list (zip_with (fun x z => Rmax x 0 - x * z + ln (1 + exp (- Rabs x)))
                      (data y_pred) (data y_true)).
Proof.
  intros Hs.
  unfold binary_crossentropy, tf.nn.sigmoid_cross_entropy_with_logits.
  rewrite decide_True by done.
  rewrite (mapM_zip_total _ Spec.sigmoid_formula) by apply sigmoid_elem_formula.
  reflexivity.
Qed.

Lemma binary_crossentropy_formula_witness :
  binary_crossentropy (mkTensor [1%nat; 2%nat] [0; 3])
                      (mkTensor [1%nat; 2%nat] [1; 0]) =
  mean_list (zip_with (fun x z => Rmax x 0 - x * z + ln (1 + exp (- Rabs x)))
                      [0; 3] [1; 0]).
Proof.
  apply (binary_crossentropy_formula (mkTensor [1%nat; 2%nat] [0; 3])
                                     (mkTensor [1%nat; 2%nat] [1; 0])).
  reflexivity.
Defined.

(** ** get *)

Lemma globals_mean_square (ns : gmap string pyobj) :
  globals ns !! "mean_square" = Some (Function (Objective MeanSquare)).
Proof. unfold globals. by simplify_map_eq. Qed.

(** C8: [get("mean_square")] resolves to the same function as
    [get(mean_square)], namely [mean_square]; an identifier that is already
    callable is passed through unchanged. *)
Theorem get_name_and_callable (ns : gmap string pyobj) :
  get ns (Name "mean_square") = get ns (Callable (Objective MeanSquare))
  /\ get ns (Name "mean_square") = Found (Function (Objective MeanSquare))
  /\ forall f, get ns (Callable f) = Found (Function f).
Proof.
  unfold get, get_from_module. rewrite globals_mean_square. done.
Qed.

(** C9, as stated, fails: [tf] names no objective function, and
    [get("tf")] returns the module the name is bound to. *)
Lemma get_non_objective_name :
  ~ (forall (ns : gmap string pyobj) (s : string),
        s ∉ objective_names -> failed (get ns (Name s))).
Proof.
  intros H. specialize (H ∅ "tf").
  assert (Hget : get ∅ (Name "tf") = Found (PyModule "tensorflow")).
  { unfold get, get_from_module, globals. by simplify_map_eq. }
  rewrite Hget in H. apply H. unfold objective_names.
  rewrite !elem_of_cons, elem_of_nil. intros Hin.
  repeat (destruct Hin as [Hin|Hin]; [discriminate|]). done.
Qed.

(** C9 (amended): for every string that is not bound in the namespace of
    the module, [get] fails with an error that names the category and the
    identifier. *)
Theorem get_unbound_name (ns : gmap string pyobj) (s : string) :
  globals ns !! s = None ->
  get ns (Name s) = Invalid "objective" s /\ failed (get ns (Name s)).
Proof.
  intros Hs. unfold get, get_from_module. by rewrite Hs.
Qed.

Lemma get_unbound_name_witness :
  get (<["__name__" := Value "tflearn.objectives"]> ∅)
      (Name "not_a_real_objective")
  = Invalid "objective" "not_a_real_objective"
  /\ failed (get (<["__name__" := Value "tflearn.objectives"]> ∅)
                 (Name "not_a_real_objective")).
Proof.
  apply (get_unbound_name (<["__name__" := Value "tflearn.objectives"]> ∅)
                          "not_a_real_objective").
  unfold globals. by simplify_map_eq.
Defined.

(** ** softmax_categorical_crossentropy *)

Lemma mapM_total {A B} (g : A -> option B) (f : A -> B) (l : list A) :
  Forall (fun x => g x = Some (f x)) l -> mapM g l = Some (f <$> l).
Proof.
  intros Hg. apply mapM_Some_2.
  induction Hg as [|x l Hx _ IH]; simpl; constructor; auto.
Qed.

Lemma rsum_exp_pos (xs : list R) : xs <> [] -> 0 < rsum (exp <$> xs).
Proof.
  destruct xs as [|x xs]; [done|]. intros _.
  change (0 < exp x + rsum (exp <$> xs)).
  pose proof (exp_pos x).
  assert (0 <= rsum (exp <$> xs)); [|lra].
  apply rsum_nonneg, Forall_fmap, Forall_true. intros y. simpl.
  left. apply exp_pos.
Qed.

Lemma rsum_exp_shift (m : R) (xs : list R) :
  rsum ((fun x => exp (x - m)) <$> xs) = rsum (exp <$> xs) * exp (- m).
Proof.
  unfold rsum. induction xs as [|x xs IH]; csimpl; [lra|].
  rewrite IH. unfold Rminus. rewrite exp_plus. ring.
Qed.

Lemma ln_softmax (x s : R) : 0 < s -> ln (exp x / s) = x - ln s.
Proof.
  intros Hs. unfold Rdiv. rewrite ln_mult.
  - rewrite ln_exp, ln_Rinv by done. lra.
  - apply exp_pos.
  - by apply Rinv_0_lt_compat.
Qed.

Lemma div_elem_nonzero (x s : R) : s <> 0 -> div_elem x s = Some (x / s).
Proof. intros Hs. unfold div_elem. by destruct (Req_dec_T s 0). Qed.

Lemma softmax_defined (xs : list R) :
  Spec.softmax xs = Some ((fun x => exp x / rsum (exp <$> xs)) <$> xs).
Proof.
  unfold Spec.softmax. destruct (decide (xs = [])) as [->|Hne]; [done|].
  apply mapM_total, Forall_true. intros x.
  apply div_elem_nonzero. pose proof (rsum_exp_pos xs Hne). lra.
Qed.

Lemma mapM_fmap_total {A B C} (g : B -> option C) (f : A -> B) (h : A -> C)
    (l : list A) :
  (forall x, g (f x) = Some (h x)) -> mapM g (f <$> l) = Some (h <$> l).
Proof.
  intros Hg. apply mapM_Some_2.
  induction l as [|x l IH]; simpl; constructor; auto.
Qed.

Lemma log_softmax_defined (xs : list R) :
  mapM log_elem ((fun x => exp x / rsum (exp <$> xs)) <$> xs)
  = Some ((fun x => x - ln (rsum (exp <$> xs))) <$> xs).
Proof.
  destruct (decide (xs = [])) as [->|Hne]; [done|].
  pose proof (rsum_exp_pos xs Hne) as Hpos.
  apply mapM_fmap_total. intros x.
  rewrite log_elem_pos, ln_softmax; [done..|].
  apply Rdiv_lt_0_compat; [apply exp_pos | done].
Qed.

Lemma naive_row_value (xs ts : list R) :
  Spec.naive_row xs ts =
  Some (- rsum (zip_with Rmult ts
                  ((fun x => x - ln (rsum (exp <$> xs))) <$> xs))).
Proof.
  unfold Spec.naive_row. rewrite softmax_defined. simpl.
  by rewrite log_softmax_defined.
Qed.

Lemma xent_row_value (xs ts : list R) :
  tf.nn.xent_row xs ts =
  Some (rsum (zip_with (fun x t => t * (ln (rsum (exp <$> xs)) - x)) xs ts)).
Proof.
  unfold tf.nn.xent_row. destruct (decide (xs = [])) as [->|Hne]; [done|].
  pose proof (rsum_exp_pos xs Hne) as Hpos.
  set (m := tf.nn.row_max xs).
  rewrite (mapM_zip_total
             (fun x t => l ← log_elem (rsum ((fun x => exp (x - m)) <$> xs));
                         Some (t * (l - (x - m))))
             (fun x t => t * (ln (rsum (exp <$> xs)) - x))).
  - done.
  - intros x t. rewrite rsum_exp_shift, log_elem_pos.
    + simpl. rewrite ln_mult, ln_exp by (done || apply exp_pos).
      f_equal. ring.
    + apply Rmult_lt_0_compat; [done | apply exp_pos].
Qed.

Lemma rsum_zip_opp (c : R) (xs ts : list R) :
  rsum (zip_with (fun x t => t * (c - x)) xs ts)
  = - rsum (zip_with Rmult ts ((fun x => x - c) <$> xs)).
Proof.
  unfold rsum. revert ts.
  induction xs as [|x xs IH]; intros [|t ts]; csimpl; try lra.
  rewrite IH. ring.
Qed.

Lemma xent_row_naive (xs ts : list R) :
  tf.nn.xent_row xs ts = Spec.naive_row xs ts.
Proof.
  rewrite xent_row_value, naive_row_value. f_equal. apply rsum_zip_opp.
Qed.


(** C2: for tensors of the same shape the loss computed through the fused
    softmax-cross-entropy primitive equals the naive composition: the mean
    over the batch of [- sum_over_classes (y_true * log (softmax y_pred))]. *)
Theorem softmax_categorical_crossentropy_naive (y_pred y_true : Tensor) :
  shape y_pred = shape y_true ->
  softmax_categorical_crossentropy y_pred y_true =
  Spec.softmax_categorical_crossentropy y_pred y_true.
Proof.
  intros Hs.
  unfold softmax_categorical_crossentropy,
    tf.nn.softmax_cross_entropy_with_logits,
    Spec.softmax_categorical_crossentropy.
  rewrite decide_True by done.
  rewrite (mapM_ext _ (fun r => Spec.naive_row r.1 r.2))
    by (intros [xs ts]; apply xent_row_naive).
  by destruct (mapM _ _).
Qed.

(** ** Rows of a tensor *)

Lemma numel_snoc (lead : list nat) (n : nat) :
  numel (lead ++ [n]) = (numel lead * n)%nat.
Proof.
  unfold numel. induction lead as [|d lead IH]; simpl; [lia|].
  rewrite IH. lia.
Qed.

Lemma lead_dims_snoc (lead : list nat) (n : nat) :
  lead_dims (lead ++ [n]) = lead.
Proof.
  unfold lead_dims. rewrite length_app. simpl.
  replace (length lead + 1 - 1)%nat with (length lead) by lia.
  by rewrite take_app_length.
Qed.

Lemma shape_split (sh : list nat) (n : nat) :
  last sh = Some n -> sh = lead_dims sh ++ [n].
Proof.
  intros [lead ->]%last_Some. by rewrite lead_dims_snoc.
Qed.

Lemma rows_of_length {A} (k n : nat) (l : list A) : length (rows_of k n l) = k.
Proof. revert l. induction k as [|k IH]; intros l; simpl; auto. Qed.

Lemma rows_of_widths {A} (k n : nat) (l : list A) :
  length l = (k * n)%nat -> Forall (fun r => length r = n) (rows_of k n l).
Proof.
  revert l. induction k as [|k IH]; intros l Hl; simpl; constructor.
  - rewrite length_take. lia.
  - apply IH. rewrite length_drop. lia.
Qed.

Lemma rows_of_concat {A} (k n : nat) (ls : list (list A)) :
  length ls = k -> Forall (fun r => length r = n) ls ->
  rows_of k n (concat ls) = ls.
Proof.
  intros <- Hw. induction Hw as [|r ls Hr _ IH]; simpl; [done|].
  by rewrite take_app_length', drop_app_length', IH.
Qed.

Lemma rows_of_zip_with {A B C} (f : A -> B -> C) (k n : nat)
    (a : list A) (b : list B) :
  rows_of k n (zip_with f a b)
  = zip_with (zip_with f) (rows_of k n a) (rows_of k n b).
Proof.
  revert a b. induction k as [|k IH]; intros a b; simpl; [done|].
  by rewrite zip_with_take, zip_with_drop, IH.
Qed.


Lemma mapM_cons {A B} (f : A -> option B) (x : A) (l : list A) :
  mapM f (x :: l) = y ← f x; k ← mapM f l; Some (y :: k).
Proof. reflexivity. Qed.

Lemma ln_nonpos (c : R) : 0 < c <= 1 -> ln c <= 0.
Proof.
  intros [Hpos [Hlt | ->]].
  - left. rewrite <- ln_1. by apply ln_increasing.
  - rewrite ln_1. lra.
Qed.


Lemma rows_of_Forall {A} (P : A -> Prop) (k n : nat) (l : list A) :
  Forall P l -> Forall (Forall P) (rows_of k n l).
Proof.
  revert l. induction k as [|k IH]; intros l Hl; simpl; constructor.
  - by apply Forall_take.
  - by apply IH, Forall_drop.
Qed.



Lemma softmax_categorical_crossentropy_naive_witness :
  softmax_categorical_crossentropy
    (mkTensor [1%nat; 3%nat] [2; -1; 0]) (mkTensor [1%nat; 3%nat] [1; 0; 0])
  = Spec.softmax_categorical_crossentropy
      (mkTensor [1%nat; 3%nat] [2; -1; 0]) (mkTensor [1%nat; 3%nat] [1; 0; 0]).
Proof.
  apply (softmax_categorical_crossentropy_naive
           (mkTensor [1%nat; 3%nat] [2; -1; 0])
           (mkTensor [1%nat; 3%nat] [1; 0; 0])); reflexivity.
Defined.

(** * Further properties of the objectives *)

(** ** mean_square *)

(** [mean_square] does not depend on the order of its arguments. *)
Theorem mean_square_comm (y_pred y_true : Tensor) :
  mean_square y_pred y_true = mean_square y_true y_pred.
Proof.
  destruct (decide (shape y_pred = shape y_true)) as [Hs|Hs].
  - rewrite !mean_square_formula by done. f_equal.
    generalize (data y_pred) (data y_true). clear.
    induction l as [|x l IH]; intros [|y k]; simpl; try done.
    rewrite IH. f_equal. unfold Spec.square_elem. ring.
  - unfold mean_square, tf.sub.
    by rewrite !binop_shape_mismatch.
Qed.

(** ** hinge_loss *)

(** [hinge_loss] does not depend on the order of its arguments. *)
Theorem hinge_loss_comm (y_pred y_true : Tensor) :
  hinge_loss y_pred y_true = hinge_loss y_true y_pred.
Proof.
  destruct (decide (shape y_pred = shape y_true)) as [Hs|Hs].
  - rewrite !hinge_loss_formula by done. unfold Spec.hinge_loss. f_equal.
    generalize (data y_pred) (data y_true). clear.
    induction l as [|x l IH]; intros [|y k]; simpl; try done.
    rewrite IH. f_equal. unfold Spec.hinge_elem. f_equal. ring.
  - unfold hinge_loss, tf.mul.
    by rewrite !binop_shape_mismatch.
Qed.

(** ** Tensors without elements *)

(** When [y_pred] holds no element, the three objectives that average over
    all the elements have no result, whatever [y_true] is. *)
Theorem mean_of_no_element (y_pred y_true : Tensor) :
  data y_pred = [] ->
  mean_square y_pred y_true = None
  /\ hinge_loss y_pred y_true = None
  /\ binary_crossentropy y_pred y_true = None.
Proof.
  intros Hd. destruct (decide (shape y_pred = shape y_true)) as [Hs|Hs].
  - rewrite mean_square_formula, hinge_loss_formula by done.
    rewrite binary_crossentropy_stable by done.
    unfold Spec.hinge_loss, Spec.binary_crossentropy. by rewrite Hd.
  - unfold mean_square, hinge_loss, binary_crossentropy, tf.sub, tf.mul,
      tf.nn.sigmoid_cross_entropy_with_logits.
    rewrite !binop_shape_mismatch by done.
    by rewrite decide_False.
Qed.

Lemma mean_of_no_element_witness :
  mean_square empty_batch empty_batch = None
  /\ hinge_loss empty_batch empty_batch = None
  /\ binary_crossentropy empty_batch empty_batch = None.
Proof. apply (mean_of_no_element empty_batch empty_batch). reflexivity. Defined.

(** ** binary_crossentropy *)

Lemma exp_neg_factor (x : R) : 1 + exp (- x) = exp (- x) * (1 + exp x).
Proof.
  rewrite Rmult_plus_distr_l, <- exp_plus.
  replace (- x + x) with 0 by ring. rewrite exp_0. ring.
Qed.

Lemma ln_one_plus_exp (x : R) : ln (1 + exp (- x)) = - x + ln (1 + exp x).
Proof.
  rewrite exp_neg_factor, ln_mult, ln_exp; [done | apply exp_pos |].
  pose proof (exp_pos x). lra.
Qed.

Lemma sigmoid_formula_logistic (x z : R) :
  Spec.sigmoid_formula x z = x - x * z + ln (1 + exp (- x)).
Proof.
  unfold Spec.sigmoid_formula, Rmax, Rabs.
  destruct (Rle_dec x 0), (Rcase_abs x).
  - rewrite Ropp_involutive, (ln_one_plus_exp x). lra.
  - replace x with 0 by lra. lra.
  - lra.
  - lra.
Qed.

Lemma zip_with_ext_R (f g : R -> R -> R) (l k : list R) :
  (forall x y, f x y = g x y) -> zip_with f l k = zip_with g l k.
Proof.
  intros Hfg. revert k.
  induction l as [|x l IH]; intros [|y k]; simpl; try done.
  by rewrite Hfg, IH.
Qed.

(** The stable form the implementation uses is the logistic loss of the
    docstring: for tensors of one shape [binary_crossentropy] is the mean
    over all elements of [x - x * z + log(1 + exp(-x))]. *)
Theorem binary_crossentropy_logistic (y_pred y_true : Tensor) :
  shape y_pred = shape y_true ->
  binary_crossentropy y_pred y_true =
  mean_list (zip_with (fun x z => x - x * z + ln (1 + exp (- x)))
                      (data y_pred) (data y_true)).
Proof.
  intros Hs. rewrite binary_crossentropy_stable by done.
  unfold Spec.binary_crossentropy. f_equal.
  apply zip_with_ext_R, sigmoid_formula_logistic.
Qed.

Lemma binary_crossentropy_logistic_witness :
  binary_crossentropy (mkTensor [1%nat; 2%nat] [0; 3])
                      (mkTensor [1%nat; 2%nat] [1; 0]) =
  mean_list (zip_with (fun x z => x - x * z + ln (1 + exp (- x)))
                      [0; 3] [1; 0]).
Proof.
  apply (binary_crossentropy_logistic (mkTensor [1%nat; 2%nat] [0; 3])
                                      (mkTensor [1%nat; 2%nat] [1; 0])).
  reflexivity.
Defined.

Lemma logistic_sigmoid_crossentropy (x z : R) :
  x - x * z + ln (1 + exp (- x))
  = - z * ln (/ (1 + exp (- x))) - (1 - z) * ln (1 - / (1 + exp (- x))).
Proof.
  pose proof (exp_pos (- x)) as He.
  assert (Hs : 0 < 1 + exp (- x)) by lra.
  rewrite ln_Rinv by done.
  replace (1 - / (1 + exp (- x))) with (exp (- x) * / (1 + exp (- x)))
    by (field; lra).
  rewrite ln_mult, ln_exp, ln_Rinv; [ring | done.. |].
  by apply Rinv_0_lt_compat.
Qed.

(** [binary_crossentropy] is the sigmoid cross-entropy: with
    [s = 1 / (1 + exp(-x))] the sigmoid of the logit, it is the mean over
    all elements of [- z * log s - (1 - z) * log (1 - s)]. *)
Theorem binary_crossentropy_sigmoid (y_pred y_true : Tensor) :
  shape y_pred = shape y_true ->
  binary_crossentropy y_pred y_true =
  mean_list (zip_with (fun x z => - z * ln (/ (1 + exp (- x)))
                                  - (1 - z) * ln (1 - / (1 + exp (- x))))
                      (data y_pred) (data y_true)).
Proof.
  intros Hs. rewrite binary_crossentropy_stable by done.
  unfold Spec.binary_crossentropy. f_equal.
  apply zip_with_ext_R. intros x z.
  rewrite sigmoid_formula_logistic. apply logistic_sigmoid_crossentropy.
Qed.

Lemma binary_crossentropy_sigmoid_witness :
  binary_crossentropy (mkTensor [1%nat; 2%nat] [0; 3])
                      (mkTensor [1%nat; 2%nat] [1; 0]) =
  mean_list (zip_with (fun x z => - z * ln (/ (1 + exp (- x)))
                                  - (1 - z) * ln (1 - / (1 + exp (- x))))
                      [0; 3] [1; 0]).
Proof.
  apply (binary_crossentropy_sigmoid (mkTensor [1%nat; 2%nat] [0; 3])
                                     (mkTensor [1%nat; 2%nat] [1; 0])).
  reflexivity.
Defined.

Lemma sigmoid_formula_pos (x z : R) :
  0 <= z <= 1 -> 0 < Spec.sigmoid_formula x z.
Proof.
  intros Hz. unfold Spec.sigmoid_formula.
  assert (Hln : 0 < ln (1 + exp (- Rabs x))).
  { rewrite <- ln_1. apply ln_increasing; [lra|].
    pose proof (exp_pos (- Rabs x)). lra. }
  assert (0 <= Rmax x 0 - x * z); [|lra].
  unfold Rmax. destruct (Rle_dec x 0); nra.
Qed.

Lemma Forall_zip_with_r (P : R -> Prop) (Q : R -> Prop) (f : R -> R -> R)
    (l k : list R) :
  (forall x y, Q y -> P (f x y)) -> Forall Q k -> Forall P (zip_with f l k).
Proof.
  intros Hf Hk. revert l.
  induction Hk as [|y k Hy _ IH]; intros [|x l]; simpl; constructor; auto.
Qed.

(** With targets between 0 and 1 and at least one element,
    [binary_crossentropy] returns a scalar that is [>= 0]. *)
Theorem binary_crossentropy_nonneg (y_pred y_true : Tensor) :
  wf y_pred -> wf y_true -> shape y_pred = shape y_true ->
  data y_pred <> [] ->
  Forall (fun z => 0 <= z <= 1) (data y_true) ->
  exists v, binary_crossentropy y_pred y_true = Some v /\ 0 <= v.
Proof.
  intros Hp Ht Hs Hne Hz. rewrite binary_crossentropy_stable by done.
  apply mean_list_nonneg.
  - apply zip_with_nil_inv_same_length; [by apply wf_same_length | done].
  - apply (Forall_zip_with_r _ (fun z => 0 <= z <= 1)); [|done].
    intros x z Hxz. left. by apply sigmoid_formula_pos.
Qed.

Lemma binary_crossentropy_nonneg_witness :
  exists v, binary_crossentropy (mkTensor [1%nat; 2%nat] [0; 3])
                                (mkTensor [1%nat; 2%nat] [1; 0]) = Some v
            /\ 0 <= v.
Proof.
  apply (binary_crossentropy_nonneg (mkTensor [1%nat; 2%nat] [0; 3])
                                    (mkTensor [1%nat; 2%nat] [1; 0]));
    try reflexivity.
  - simpl. discriminate.
  - simpl. repeat (apply List.Forall_cons; [lra|]). apply List.Forall_nil.
Defined.

(** ** softmax_categorical_crossentropy *)

Lemma ln_le_mono (a b : R) : 0 < a -> a <= b -> ln a <= ln b.
Proof.
  intros Ha [Hlt | ->]; [|lra]. left. by apply ln_increasing.
Qed.







Lemma rows_of_fmap {A B} (f : A -> B) (k n : nat) (l : list A) :
  rows_of k n (f <$> l) = fmap (M:=list) (fmap f) (rows_of k n l).
Proof.
  revert l. induction k as [|k IH]; intros l; [done|].
  simpl rows_of. by rewrite fmap_cons, fmap_take, <- IH, fmap_drop.
Qed.

Lemma rows_unop (f : R -> R) (t : Tensor) :
  rows (tf.unop f t) = fmap (M:=list) (fmap f) (rows t).
Proof.
  unfold rows, tf.unop. cbn [shape data].
  destruct (last (shape t)); [|done]. apply rows_of_fmap.
Qed.

Lemma mapM_zip_fmap_l {A A' B C} (F : A' -> B -> option C) (g : A -> A')
    (l : list A) (k : list B) :
  mapM (fun r => F r.1 r.2) (zip (g <$> l) k)
  = mapM (fun r => F (g r.1) r.2) (zip l k).
Proof.
  revert k. induction l as [|x l IH]; intros [|y k]; try done.
  rewrite fmap_cons. simpl zip. by rewrite !mapM_cons, IH.
Qed.

Lemma rsum_exp_translate (c : R) (xs : list R) :
  rsum (exp <$> ((fun x => x + c) <$> xs)) = rsum (exp <$> xs) * exp c.
Proof.
  unfold rsum. induction xs as [|x xs IH]; csimpl; [lra|].
  rewrite IH, exp_plus. ring.
Qed.

Lemma naive_row_translate (c : R) (xs ts : list R) :
  Spec.naive_row ((fun x => x + c) <$> xs) ts = Spec.naive_row xs ts.
Proof.
  destruct (decide (xs = [])) as [->|Hne]; [done|].
  rewrite !naive_row_value, rsum_exp_translate.
  rewrite ln_mult, ln_exp by (apply exp_pos || by apply rsum_exp_pos).
  rewrite <- list_fmap_compose. do 4 f_equal.
  apply list_fmap_ext. intros _ x _. simpl. ring.
Qed.

(** Adding one constant to every logit does not change the loss. *)
Theorem softmax_categorical_crossentropy_translate
    (c : R) (y_pred y_true : Tensor) :
  softmax_categorical_crossentropy (tf.unop (fun x => x + c) y_pred) y_true
  = softmax_categorical_crossentropy y_pred y_true.
Proof.
  unfold softmax_categorical_crossentropy,
    tf.nn.softmax_cross_entropy_with_logits.
  rewrite rows_unop. cbn [shape tf.unop].
  destruct (decide (shape y_pred = shape y_true)); [|done].
  rewrite (mapM_zip_fmap_l tf.nn.xent_row). do 2 f_equal.
  apply mapM_ext. intros [xs ts]. cbn [fst snd].
  by rewrite !xent_row_naive, naive_row_translate.
Qed.




Lemma Forall_and_2 {A} (P Q : A -> Prop) (l : list A) :
  Forall P l -> Forall Q l -> Forall (fun x => P x /\ Q x) l.
Proof. intros HP HQ. by apply Forall_and. Qed.

(** ** Logits that do not tell the classes apart *)







(** ** Every objective is found under its name *)

(** For each of the five objectives, [get] applied to the name it is
    defined under returns that function, as [get] applied to the function
    itself does, whatever the attributes the interpreter has set on the
    module. *)
Theorem get_objective_by_name (ns : gmap string pyobj) (o : objective) :
  get ns (Name (objective_name o)) = Found (Function (Objective o))
  /\ get ns (Name (objective_name o)) = get ns (Callable (Objective o)).
Proof.
  unfold get, get_from_module, globals.
  destruct o; simpl; by simplify_map_eq.
Qed.

(** * Floating-point behaviour *)

(** ** Rounding and the special values *)

Lemma exact_rounding : IEEE.rounding IEEE.exact.
Proof.
  split; unfold IEEE.exact; simpl; try done.
Qed.

Lemma coarse_rounding (tiny big : R) :
  0 < tiny <= 1 -> 1 <= big -> IEEE.rounding (IEEE.coarse tiny big).
Proof.
  intros Ht Hb. split; unfold IEEE.coarse.
  - intros _. repeat (destruct (Rlt_dec _ _); try lra). done.
  - intros _. repeat (destruct (Rlt_dec _ _); try lra). done.
  - intros _ a b Hab.
    repeat (destruct (Rlt_dec _ _); try lra); simpl; try done; lra.
  - intros _ a b.
    repeat (destruct (Rlt_dec _ _); try lra); intros [= <-]; try done;
      exfalso; lra.
Qed.

Section Rounding.
Import IEEE.
Variable rnd : DType -> R -> fval.
Hypothesis Hrnd : rounding rnd.

Lemma rnd_not_nan (d : DType) (a : R) : rnd d a <> NaN.
Proof.
  intros Hnan. pose proof (rnd_mono rnd Hrnd d a a (Rle_refl a)) as Hle.
  rewrite Hnan in Hle. done.
Qed.

Lemma fle_zero_nonneg (x : fval) : fle (Fin 0) x <-> nonneg x.
Proof. by destruct x. Qed.

Lemma rnd_nonneg (d : DType) (a : R) : 0 <= a -> nonneg (rnd d a).
Proof.
  intros Ha. pose proof (rnd_mono rnd Hrnd d 0 a Ha) as Hle.
  rewrite (rnd_zero rnd Hrnd) in Hle. by apply fle_zero_nonneg.
Qed.

Lemma rnd_nonpos (d : DType) (a : R) : a <= 0 -> fle (rnd d a) (Fin 0).
Proof.
  intros Ha. pose proof (rnd_mono rnd Hrnd d a 0 Ha) as Hle.
  by rewrite (rnd_zero rnd Hrnd) in Hle.
Qed.

Lemma rnd_count (d : DType) (n : nat) (c : R) :
  (0 < n)%nat -> rnd d (INR n) = Fin c -> 1 <= c.
Proof.
  intros Hn Hc.
  assert (H1 : 1 <= INR n) by (replace 1 with (INR 1) by done; apply le_INR; lia).
  pose proof (rnd_mono rnd Hrnd d 1 (INR n) H1) as Hle.
  by rewrite (rnd_one rnd Hrnd), Hc in Hle.
Qed.

Lemma fadd_nonneg (d : DType) (x y : fval) :
  nonneg x -> nonneg y -> nonneg (fadd rnd d x y).
Proof.
  destruct x as [a| | |], y as [b| | |]; simpl; try done.
  intros Ha Hb. apply rnd_nonneg. lra.
Qed.

Lemma fsum_nonneg (d : DType) (l : list fval) :
  Forall nonneg l -> nonneg (fsum rnd d l).
Proof.
  induction 1 as [|x l Hx _ IH]; simpl; [lra|]. by apply fadd_nonneg.
Qed.

Lemma fmul_self_nonneg (d : DType) (x : fval) :
  x <> NaN -> nonneg (fmul rnd d x x).
Proof.
  destruct x as [a| | |]; simpl; try done.
  intros _. apply rnd_nonneg. apply (Rle_0_sqr a).
Qed.

Lemma fsub_finite (d : DType) (x y : fval) :
  is_finite x -> is_finite y -> fsub rnd d x y <> NaN.
Proof.
  destruct x as [a| | |], y as [b| | |]; simpl; try done.
  intros _ _. apply rnd_not_nan.
Qed.

Lemma fdiv_count_nonneg (d : DType) (x : fval) (c : R) :
  nonneg x -> 1 <= c -> nonneg (fdiv rnd d x (Fin c)).
Proof.
  intros Hx Hc. destruct x as [a| | |]; simpl in *; try done.
  - destruct (Req_dec_T c 0); [lra|]. apply rnd_nonneg.
    apply Rmult_le_pos; [done|]. left. apply Rinv_0_lt_compat. lra.
  - destruct (Rlt_dec c 0); [lra | done].
Qed.

Lemma fmean_nonneg (d : DType) (l : list fval) :
  l <> [] -> Forall nonneg l -> is_finite (rnd d (INR (length l))) ->
  nonneg (fmean rnd d l).
Proof.
  intros Hne Hl Hfin. unfold fmean.
  destruct (rnd d (INR (length l))) as [c| | |] eqn:Hc; try done.
  apply fdiv_count_nonneg; [by apply fsum_nonneg|].
  apply (rnd_count d (length l)); [|done].
  destruct l; [done | simpl; lia].
Qed.

Lemma fsum_zeros (d : DType) (l : list fval) :
  Forall (fun x => x = Fin 0) l -> fsum rnd d l = Fin 0.
Proof.
  induction 1 as [|x l -> _ IH]; simpl; [done|].
  rewrite IH. simpl. rewrite Rplus_0_l. apply (rnd_zero rnd Hrnd).
Qed.

Lemma fmean_zeros (d : DType) (l : list fval) :
  l <> [] -> Forall (fun x => x = Fin 0) l -> fmean rnd d l = Fin 0.
Proof.
  intros Hne Hl. unfold fmean. rewrite fsum_zeros by done.
  destruct (rnd d (INR (length l))) as [c| | |] eqn:Hc; simpl; try done.
  - assert (1 <= c).
    { apply (rnd_count d (length l)); [|done]. destruct l; [done | simpl; lia]. }
    destruct (Req_dec_T c 0); [lra|].
    unfold Rdiv. rewrite Rmult_0_l. apply (rnd_zero rnd Hrnd).
  - by apply rnd_not_nan in Hc.
Qed.

Lemma square_diff_self (d : DType) (l : list fval) :
  Forall is_finite l ->
  Forall (fun x => x = Fin 0)
         ((fun x => fmul rnd d x x) <$> zip_with (fsub rnd d) l l).
Proof.
  induction 1 as [|x l Hx _ IH]; csimpl; constructor; [|done].
  destruct x as [a| | |]; try done. simpl.
  rewrite Rplus_opp_r, (rnd_zero rnd Hrnd). simpl.
  rewrite Rmult_0_l. apply (rnd_zero rnd Hrnd).
Qed.

Lemma square_diff_nonneg (d : DType) (l k : list fval) :
  Forall is_finite l -> Forall is_finite k ->
  Forall nonneg ((fun x => fmul rnd d x x) <$> zip_with (fsub rnd d) l k).
Proof.
  intros Hl. revert k.
  induction Hl as [|x l Hx _ IH]; intros k Hk; [constructor|].
  destruct Hk as [|y k Hy Hk]; [constructor|]. csimpl. constructor.
  - by apply fmul_self_nonneg, fsub_finite.
  - by apply IH.
Qed.

End Rounding.

(** ** mean_square on floating-point tensors *)

Lemma mean_square_same_type (rnd : IEEE.DType -> R -> IEEE.fval)
    (y_pred y_true : IEEE.Tensor) :
  IEEE.dtype y_pred = IEEE.dtype y_true ->
  IEEE.shape y_pred = IEEE.shape y_true ->
  IEEE.mean_square rnd y_pred y_true
  = IEEE.Ok (IEEE.fmean rnd (IEEE.dtype y_pred)
               ((fun x => IEEE.fmul rnd (IEEE.dtype y_pred) x x)
                  <$> zip_with (IEEE.fsub rnd (IEEE.dtype y_pred))
                               (IEEE.data y_pred) (IEEE.data y_true))).
Proof.
  intros Hd Hs. unfold IEEE.mean_square, IEEE.tf.sub, IEEE.tf.binop.
  by rewrite !decide_True.
Qed.

(** C7, as stated, fails on a tensor without elements, where the mean is
    0/0, and on a tensor that holds an infinity, where [inf - inf] is
    already NaN. *)
Lemma mean_square_self_not_zero :
  IEEE.mean_square IEEE.exact IEEE.empty_batch IEEE.empty_batch
  = IEEE.Ok IEEE.NaN
  /\ IEEE.mean_square IEEE.exact IEEE.inf_1x1 IEEE.inf_1x1 = IEEE.Ok IEEE.NaN.
Proof.
  rewrite !mean_square_same_type by done. split; f_equal.
  unfold IEEE.fmean, IEEE.exact. simpl.
  destruct (Req_dec_T 0 0); [|done]. unfold IEEE.inf_of_sign.
  destruct (Rlt_dec 0 0); [lra | done].
Qed.

(** C7 (amended): for every tensor [a] that holds at least one element and
    only finite elements, [mean_square a a] returns 0. *)
Theorem mean_square_self_finite (rnd : IEEE.DType -> R -> IEEE.fval)
    (a : IEEE.Tensor) :
  IEEE.rounding rnd ->
  IEEE.data a <> [] -> Forall IEEE.is_finite (IEEE.data a) ->
  IEEE.mean_square rnd a a = IEEE.Ok (IEEE.Fin 0).
Proof.
  intros Hrnd Hne Hfin. rewrite mean_square_same_type by done. f_equal.
  apply fmean_zeros; [done | |].
  - intros Hnil. apply fmap_nil_inv in Hnil.
    by destruct (IEEE.data a).
  - by apply square_diff_self.
Qed.

Lemma mean_square_self_finite_witness :
  IEEE.mean_square IEEE.exact
    (IEEE.mkTensor IEEE.float32 [1%nat; 2%nat] [IEEE.Fin 1; IEEE.Fin 2])
    (IEEE.mkTensor IEEE.float32 [1%nat; 2%nat] [IEEE.Fin 1; IEEE.Fin 2])
  = IEEE.Ok (IEEE.Fin 0).
Proof.
  apply (mean_square_self_finite IEEE.exact
           (IEEE.mkTensor IEEE.float32 [1%nat; 2%nat]
              [IEEE.Fin 1; IEEE.Fin 2])).
  - apply exact_rounding.
  - simpl. discriminate.
  - simpl. repeat (apply List.Forall_cons; [exact I|]). apply List.Forall_nil.
Defined.

(** C10, as stated, fails on tensors without elements and on tensors that
    hold an infinity: the result is NaN, which is not [>= 0].  It also
    fails on tensors of one shape and of different dtypes, for which no
    scalar is returned. *)
Lemma mean_square_not_nonneg :
  (~ exists v, IEEE.mean_square IEEE.exact IEEE.empty_batch IEEE.empty_batch
               = IEEE.Ok v /\ IEEE.nonneg v)
  /\ (~ exists v, IEEE.mean_square IEEE.exact IEEE.inf_1x1 IEEE.inf_1x1
                  = IEEE.Ok v /\ IEEE.nonneg v)
  /\ (~ exists v, IEEE.mean_square IEEE.exact (IEEE.unit_1x1 IEEE.float32)
                    (IEEE.unit_1x1 IEEE.float64)
                  = IEEE.Ok v /\ IEEE.nonneg v).
Proof.
  assert (Hempty : IEEE.mean_square IEEE.exact IEEE.empty_batch
                     IEEE.empty_batch = IEEE.Ok IEEE.NaN).
  { rewrite mean_square_same_type by done. f_equal.
    unfold IEEE.fmean, IEEE.exact. simpl.
    destruct (Req_dec_T 0 0); [|done]. unfold IEEE.inf_of_sign.
    destruct (Rlt_dec 0 0); [lra | done]. }
  assert (Hinf : IEEE.mean_square IEEE.exact IEEE.inf_1x1 IEEE.inf_1x1
                 = IEEE.Ok IEEE.NaN).
  { by rewrite mean_square_same_type. }
  repeat split; intros [v [Hv Hpos]].
  - rewrite Hempty in Hv. injection Hv as <-. done.
  - rewrite Hinf in Hv. injection Hv as <-. done.
  - discriminate Hv.
Qed.

(** C10 (amended): for every pair of tensors of one dtype and one shape
    that hold at least one element and only finite elements, the scalar
    [mean_square] returns is [>= 0]: a number that is not negative, or
    [+inf] when the squares overflow.  The number of elements is assumed to
    be finite in the dtype. *)
Theorem mean_square_nonneg_finite (rnd : IEEE.DType -> R -> IEEE.fval)
    (y_pred y_true : IEEE.Tensor) :
  IEEE.rounding rnd ->
  IEEE.dtype y_pred = IEEE.dtype y_true ->
  IEEE.shape y_pred = IEEE.shape y_true ->
  IEEE.wf y_pred -> IEEE.wf y_true ->
  IEEE.data y_pred <> [] ->
  Forall IEEE.is_finite (IEEE.data y_pred) ->
  Forall IEEE.is_finite (IEEE.data y_true) ->
  IEEE.is_finite (rnd (IEEE.dtype y_pred)
                      (INR (length (IEEE.data y_pred)))) ->
  exists v, IEEE.mean_square rnd y_pred y_true = IEEE.Ok v /\ IEEE.nonneg v.
Proof.
  intros Hrnd Hd Hs Hp Ht Hne Hfp Hft Hcount.
  rewrite mean_square_same_type by done. eexists. split; [done|].
  assert (Hlen : length (IEEE.data y_pred) = length (IEEE.data y_true)).
  { unfold IEEE.wf in *. by rewrite Hp, Ht, Hs. }
  apply fmean_nonneg; [done | | by apply square_diff_nonneg |].
  - intros Hnil. apply fmap_nil_inv in Hnil. revert Hnil.
    by apply zip_with_nil_inv_same_length.
  - by rewrite length_fmap, length_zip_with, <- Hlen, Nat.min_id.
Qed.

Lemma mean_square_nonneg_finite_witness :
  exists v,
    IEEE.mean_square IEEE.exact
      (IEEE.mkTensor IEEE.float32 [1%nat; 2%nat] [IEEE.Fin 1; IEEE.Fin 2])
      (IEEE.mkTensor IEEE.float32 [1%nat; 2%nat] [IEEE.Fin 3; IEEE.Fin 5])
    = IEEE.Ok v /\ IEEE.nonneg v.
Proof.
  apply (mean_square_nonneg_finite IEEE.exact
           (IEEE.mkTensor IEEE.float32 [1%nat; 2%nat]
              [IEEE.Fin 1; IEEE.Fin 2])
           (IEEE.mkTensor IEEE.float32 [1%nat; 2%nat]
              [IEEE.Fin 3; IEEE.Fin 5])); try reflexivity.
  - apply exact_rounding.
  - simpl. discriminate.
  - simpl. repeat (apply List.Forall_cons; [exact I|]). apply List.Forall_nil.
  - simpl. repeat (apply List.Forall_cons; [exact I|]). apply List.Forall_nil.
Defined.

(** Underflow and overflow, on the rounding [coarse (1/4) 4]: two tensors
    that differ have the mean square 0 when the square of their difference
    is flushed to zero, and finite elements have the mean square [+inf]
    when a square overflows. *)
Lemma mean_square_underflow :
  IEEE.mean_square (IEEE.coarse (1 / 4) 4)
    (IEEE.mkTensor IEEE.float32 [1%nat; 1%nat] [IEEE.Fin (1 / 4)])
    (IEEE.mkTensor IEEE.float32 [1%nat; 1%nat] [IEEE.Fin 0])
  = IEEE.Ok (IEEE.Fin 0).
Proof.
  rewrite mean_square_same_type by done. f_equal.
  unfold IEEE.fmean. cbn -[IEEE.coarse Rdiv].
  repeat (unfold IEEE.coarse at 1;
          repeat (destruct (Rlt_dec _ _); try lra); cbn -[IEEE.coarse Rdiv]).
  destruct (Req_dec_T 1 0); [lra|].
  unfold IEEE.coarse. repeat (destruct (Rlt_dec _ _); try lra). done.
Qed.

Lemma mean_square_overflow :
  IEEE.mean_square (IEEE.coarse (1 / 4) 4)
    (IEEE.mkTensor IEEE.float32 [1%nat; 1%nat] [IEEE.Fin 3])
    (IEEE.mkTensor IEEE.float32 [1%nat; 1%nat] [IEEE.Fin 0])
  = IEEE.Ok IEEE.PInf.
Proof.
  rewrite mean_square_same_type by done. f_equal.
  unfold IEEE.fmean. cbn -[IEEE.coarse Rdiv].
  repeat (unfold IEEE.coarse at 1;
          repeat (destruct (Rlt_dec _ _); try lra); cbn -[IEEE.coarse Rdiv]).
  done.
Qed.

(** ** hinge_loss on floating-point tensors *)

Section Margin.
Import IEEE.
Variable rnd : DType -> R -> fval.
Hypothesis Hrnd : rounding rnd.

Lemma rounded_product_margin (d : DType) (t p : fval) :
  fle (Fin 1) (exact_product t p) -> fle (Fin 1) (fmul rnd d t p).
Proof.
  unfold exact_product.
  destruct t as [b| | |], p as [a| | |]; simpl; try done.
  unfold exact. simpl. intros Hm.
  pose proof (rnd_mono rnd Hrnd d 1 (b * a) Hm) as Hle.
  by rewrite (rnd_one rnd Hrnd) in Hle.
Qed.

Lemma margin_elem_zero (d : DType) (m : fval) :
  fle (Fin 1) m -> fmax (fsub rnd d (rnd d 1) m) (rnd d 0) = Fin 0.
Proof.
  rewrite (rnd_one rnd Hrnd), (rnd_zero rnd Hrnd).
  destruct m as [c| | |]; simpl; try done. intros Hc.
  assert (Hle : 1 + - c <= 0) by lra.
  apply (rnd_nonpos rnd Hrnd d) in Hle.
  destruct (rnd d (1 + - c)) as [v| | |]; simpl in *; try done.
  f_equal. by apply Rmax_right.
Qed.

Lemma margins_zero (d : DType) (ps ts : list fval) :
  Forall2 (fun p t => fle (Fin 1) (exact_product t p)) ps ts ->
  Forall (fun x => x = Fin 0)
         ((fun x => fmax x (rnd d 0))
            <$> ((fun x => fsub rnd d (rnd d 1) x)
                   <$> zip_with (fmul rnd d) ts ps)).
Proof.
  induction 1 as [|p t ps ts Hm _ IH]; csimpl; constructor; [|done].
  by apply margin_elem_zero, rounded_product_margin.
Qed.

End Margin.

(** On tensors of one dtype and one shape that hold an element,
    [hinge_loss] returns 0 when every product [y_true * y_pred], taken in
    exact arithmetic, is at least 1: rounding the product, and the
    difference to 1, cannot bring an example back inside the margin. *)
Theorem hinge_loss_beyond_margin (rnd : IEEE.DType -> R -> IEEE.fval)
    (y_pred y_true : IEEE.Tensor) :
  IEEE.rounding rnd ->
  IEEE.dtype y_pred = IEEE.dtype y_true ->
  IEEE.shape y_pred = IEEE.shape y_true ->
  IEEE.data y_pred <> [] ->
  Forall2 (fun p t => IEEE.fle (IEEE.Fin 1) (IEEE.exact_product t p))
          (IEEE.data y_pred) (IEEE.data y_true) ->
  IEEE.hinge_loss rnd y_pred y_true = IEEE.Ok (IEEE.Fin 0).
Proof.
  intros Hrnd Hd Hs Hne Hmargin.
  unfold IEEE.hinge_loss, IEEE.tf.mul, IEEE.tf.binop.
  rewrite !decide_True by done. cbn [mbind IEEE.outcome_bind]. f_equal.
  unfold IEEE.tf.reduce_mean, IEEE.tf.maximum_scalar, IEEE.tf.rsub_scalar,
    IEEE.tf.unop.
  cbn [IEEE.dtype IEEE.shape IEEE.data].
  apply fmean_zeros; [done | | by apply margins_zero].
  intros Hnil. do 2 apply fmap_nil_inv in Hnil.
  apply Forall2_length in Hmargin.
  revert Hnil. apply zip_with_nil_inv_same_length; [done|].
  intros Ht. rewrite Ht in Hmargin. by destruct (IEEE.data y_pred).
Qed.

Lemma hinge_loss_beyond_margin_witness :
  IEEE.hinge_loss (IEEE.coarse (1 / 4) 4)
    (IEEE.mkTensor IEEE.float32 [2%nat] [IEEE.Fin 3; IEEE.Fin (-1)])
    (IEEE.mkTensor IEEE.float32 [2%nat] [IEEE.Fin 1; IEEE.Fin (-1)])
  = IEEE.Ok (IEEE.Fin 0).
Proof.
  apply (hinge_loss_beyond_margin (IEEE.coarse (1 / 4) 4)
           (IEEE.mkTensor IEEE.float32 [2%nat] [IEEE.Fin 3; IEEE.Fin (-1)])
           (IEEE.mkTensor IEEE.float32 [2%nat] [IEEE.Fin 1; IEEE.Fin (-1)]));
    try reflexivity.
  - apply coarse_rounding; lra.
  - simpl. discriminate.
  - simpl. repeat (apply Forall2_cons_2; [simpl; lra|]). apply Forall2_nil_2.
Defined.

(** ** categorical_crossentropy on floating-point tensors *)

Lemma ieee_rows_length (t : IEEE.Tensor) (n : nat) :
  last (IEEE.shape t) = Some n ->
  length (IEEE.rows t) = numel (lead_dims (IEEE.shape t)).
Proof. intros Hl. unfold IEEE.rows. rewrite Hl. apply rows_of_length. Qed.

Lemma ieee_rows_widths (t : IEEE.Tensor) (n : nat) :
  IEEE.wf t -> last (IEEE.shape t) = Some n ->
  Forall (fun r => length r = n) (IEEE.rows t).
Proof.
  intros Hwf Hl. unfold IEEE.rows. rewrite Hl. apply rows_of_widths.
  rewrite Hwf. rewrite (shape_split _ _ Hl) at 1. apply numel_snoc.
Qed.

Lemma ieee_rows_Forall (P : IEEE.fval -> Prop) (t : IEEE.Tensor) :
  Forall P (IEEE.data t) -> Forall (Forall P) (IEEE.rows t).
Proof.
  intros Hd. unfold IEEE.rows. destruct (last (IEEE.shape t)); [|constructor].
  by apply rows_of_Forall.
Qed.

Lemma zip_with_fmap_same {A B C} (f : A -> B -> C) (g : A -> B) (l : list A) :
  zip_with f l (g <$> l) = (fun x => f x (g x)) <$> l.
Proof. induction l as [|x l IH]; csimpl; [done|]. by rewrite IH. Qed.

Lemma fmap_concat_rows {A B} (f : A -> B) (ls : list (list A)) :
  f <$> concat ls = concat (fmap (M:=list) (fmap f) ls).
Proof.
  induction ls as [|l ls IH]; csimpl; [done|].
  by rewrite fmap_app, IH.
Qed.

Lemma Forall_widths_fmap {A B} (F : list A -> list B) (n : nat)
    (ls : list (list A)) :
  (forall l, length (F l) = length l) ->
  Forall (fun r => length r = n) ls ->
  Forall (fun r => length r = n) (F <$> ls).
Proof.
  intros HF Hls. apply Forall_fmap. eapply Forall_impl; [exact Hls|].
  intros l Hl. simpl. by rewrite HF.
Qed.

Lemma row_results {T P L C D} (g : C -> D) (f : T -> L -> C) (G : P -> L)
    (ts : list T) (ps : list P) :
  g <$> zip_with f ts (G <$> ps) = zip_with (fun p t => g (f t (G p))) ps ts.
Proof.
  revert ts. induction ps as [|p ps IH]; intros [|t ts]; csimpl; try done.
  by rewrite IH.
Qed.

Section CategoricalCrossentropy.
Import IEEE.
Variable rnd : DType -> R -> fval.
Variable epsilon : R.
Variable floatx : DType.

Lemma categorical_crossentropy_rows (y_pred y_true : Tensor) (n : nat) :
  dtype y_pred = floatx -> dtype y_true = floatx ->
  wf y_pred -> wf y_true -> shape y_pred = shape y_true ->
  last (shape y_pred) = Some n ->
  categorical_crossentropy rnd epsilon floatx y_pred y_true
  = Ok (four_steps rnd epsilon floatx y_pred y_true).
Proof.
  intros Hdp Hdt Hp Ht Hs Hlast.
  assert (Hlast_t : last (shape y_true) = Some n) by (by rewrite <- Hs).
  unfold categorical_crossentropy, tf.reduce_sum.
  rewrite Hlast, decide_True by done. cbn [mbind outcome_bind].
  unfold tf.div. cbn [dtype shape data].
  rewrite !decide_True by done. cbn [mbind outcome_bind].
  unfold tf.clip_by_value, tf.cast. cbn [dtype shape data].
  rewrite decide_True by done. cbn [mbind outcome_bind].
  unfold tf.mul, tf.binop, tf.log, tf.unop. cbn [dtype shape data].
  rewrite decide_True by congruence. rewrite decide_True by congruence.
  cbn [mbind outcome_bind].
  unfold last_axis. cbn [dtype shape data].
  rewrite Hlast_t, decide_True by (by rewrite Hs).
  cbn [mbind outcome_bind]. f_equal.
  unfold tf.reduce_mean, tf.neg, tf.unop, four_steps. cbn [dtype shape data].
  rewrite Hdt. f_equal.
  unfold rows at 1. cbn [shape data]. rewrite Hlast_t.
  rewrite Hdp, zip_with_fmap_same.
  rewrite !fmap_concat_rows, <- !list_fmap_compose.
  rewrite rows_of_zip_with, rows_of_concat.
  - assert (Hrt : rows_of (numel (lead_dims (shape y_true))) n (data y_true)
                  = rows y_true) by (unfold rows; by rewrite Hlast_t).
    rewrite Hrt.
    exact (row_results (fun x => fneg (fsum rnd floatx x))
                       (zip_with (fmul rnd floatx))
                       (log_probs rnd epsilon floatx)
                       (rows y_true) (rows y_pred)).
  - rewrite length_fmap, (ieee_rows_length _ n) by done. by rewrite Hs.
  - apply Forall_widths_fmap; [|by apply ieee_rows_widths].
    intros l. unfold compose. by rewrite !length_fmap.
Qed.

End CategoricalCrossentropy.

Lemma Forall_zip_with_both {A B C} (P : A -> Prop) (Q : B -> Prop)
    (S : C -> Prop) (f : A -> B -> C) (l : list A) (k : list B) :
  (forall x y, P x -> Q y -> S (f x y)) ->
  Forall P l -> Forall Q k -> Forall S (zip_with f l k).
Proof.
  intros Hf Hl. revert k.
  induction Hl as [|x l Hx _ IH]; intros k Hk; [constructor|].
  destruct Hk as [|y k Hy Hk]; simpl; constructor; auto.
Qed.

Lemma positive_entry (l : list IEEE.fval) :
  Forall IEEE.fin_nonneg l -> 0 < rsum (IEEE.real_of <$> l) ->
  exists v, IEEE.Fin v ∈ l /\ 0 < v.
Proof.
  unfold rsum. induction 1 as [|x l Hx _ IH]; csimpl; [lra|].
  destruct x as [a| | |]; try done. simpl in *. intros Hsum.
  destruct (Rlt_dec 0 a) as [Ha|Ha].
  - exists a. split; [left | done].
  - destruct IH as (v & Hv & Hpos); [lra|].
    exists v. split; [by right | done].
Qed.

Section Sign.
Import IEEE.
Variable rnd : DType -> R -> fval.
Variable epsilon : R.
Variable floatx : DType.
Hypothesis Hrnd : rounding rnd.

Lemma fsum_representable (l : list fval) (s : R) :
  fsum rnd floatx l = Fin s -> rnd floatx s = Fin s.
Proof.
  destruct l as [|x l]; simpl.
  - intros [= <-]. apply (rnd_zero rnd Hrnd).
  - destruct x as [a| | |], (fsum rnd floatx l) as [b| | |]; simpl; try done.
    apply (rnd_idem rnd Hrnd).
Qed.

Lemma fle_fin_trans (a b : R) (x : fval) :
  a <= b -> fle (Fin b) x -> fle (Fin a) x.
Proof. destruct x; simpl; try done. lra. Qed.

Lemma fsum_ge_entry (l : list fval) (v : R) :
  Forall (fun x => fin_nonneg x
                   /\ match x with
                      | Fin r => rnd floatx r = Fin r
                      | _ => True
                      end) l ->
  Fin v ∈ l -> fle (Fin v) (fsum rnd floatx l).
Proof.
  induction 1 as [|x l [Hx Hrep] Hl IH]; intros Hin; [by inversion Hin|].
  destruct x as [a| | |]; try done. simpl in Hx.
  assert (Hsum : nonneg (fsum rnd floatx l)).
  { apply (fsum_nonneg rnd Hrnd). eapply Forall_impl; [exact Hl|].
    intros [b| | |] [Hb _]; done. }
  change (fle (Fin v) (fadd rnd floatx (Fin a) (fsum rnd floatx l))).
  destruct (fsum rnd floatx l) as [s| | |] eqn:Hs; try done.
  simpl in Hsum. cbn [fadd].
  apply elem_of_cons in Hin as [Heq | Hin].
  - assert (v = a) by congruence. subst v.
    rewrite <- Hrep at 1. apply (rnd_mono rnd Hrnd). lra.
  - specialize (IH Hin). simpl in IH.
    apply (fle_fin_trans v s); [done|].
    rewrite <- (fsum_representable l s Hs).
    apply (rnd_mono rnd Hrnd). lra.
Qed.

Lemma row_sum_positive (p : list fval) :
  Forall (fun x => fin_nonneg x
                   /\ match x with
                      | Fin r => rnd floatx r = Fin r
                      | _ => True
                      end) p ->
  0 < rsum (real_of <$> p) ->
  fsum rnd floatx p = PInf
  \/ exists s, fsum rnd floatx p = Fin s /\ 0 < s.
Proof.
  intros Hp Hsum.
  destruct (positive_entry p) as (v & Hv & Hpos).
  { eapply Forall_impl; [exact Hp|]. by intros x [Hx _]. }
  { done. }
  pose proof (fsum_ge_entry p v Hp Hv) as Hle.
  destruct (fsum rnd floatx p) as [s| | |]; simpl in Hle; try done.
  - right. exists s. split; [done | lra].
  - by left.
Qed.

Lemma quotient_nonneg (x s : fval) :
  fin_nonneg x ->
  (s = PInf \/ exists v, s = Fin v /\ 0 < v) ->
  nonneg (fdiv rnd floatx x s).
Proof.
  destruct x as [a| | |]; try done. simpl. intros Ha [-> | (v & -> & Hv)].
  - simpl. lra.
  - simpl. destruct (Req_dec_T v 0); [lra|].
    apply (rnd_nonneg rnd Hrnd).
    apply Rmult_le_pos; [done|]. left. by apply Rinv_0_lt_compat.
Qed.

Hypothesis Heps : 0 < epsilon < 1.

Lemma rnd_unit_interval (d : DType) (a : R) :
  0 <= a <= 1 -> exists h, rnd d a = Fin h /\ 0 <= h <= 1.
Proof.
  intros [H0 H1].
  pose proof (rnd_mono rnd Hrnd d _ _ H0) as Hlo.
  pose proof (rnd_mono rnd Hrnd d _ _ H1) as Hhi.
  rewrite (rnd_zero rnd Hrnd) in Hlo. rewrite (rnd_one rnd Hrnd) in Hhi.
  destruct (rnd d a) as [h| | |]; simpl in *; try done.
  by exists h.
Qed.

Lemma upper_bound_range :
  exists h, upper_bound rnd epsilon floatx = Fin h /\ 0 <= h <= 1.
Proof.
  unfold upper_bound. cbn [fsub fneg fadd].
  destruct (rnd_unit_interval float64 (1 + - epsilon)) as (h1 & -> & Hh1);
    [lra|].
  cbn [fround]. by apply rnd_unit_interval.
Qed.

Lemma lower_bound_range (e : R) :
  rnd floatx epsilon = Fin e -> e <= 1.
Proof.
  intros He. assert (H1 : epsilon <= 1) by lra.
  pose proof (rnd_mono rnd Hrnd floatx _ _ H1) as Hle.
  by rewrite He, (rnd_one rnd Hrnd) in Hle.
Qed.

Lemma clipped_range (q : fval) (e : R) :
  rnd floatx epsilon = Fin e -> 0 < e -> nonneg q ->
  exists c, fmax (fmin q (upper_bound rnd epsilon floatx))
                 (lower_bound rnd epsilon floatx)
            = Fin c /\ e <= c <= 1.
Proof.
  intros He Hpos Hq. pose proof (lower_bound_range e He) as He1.
  destruct upper_bound_range as (h & -> & Hh).
  unfold lower_bound. cbn [fround]. rewrite He.
  destruct q as [a| | |]; try done; simpl.
  - eexists. split; [done|]. split; [apply Rmax_r|].
    apply Rmax_lub; [|done].
    pose proof (Rmin_r a h). lra.
  - eexists. split; [done|]. split; [apply Rmax_r|].
    apply Rmax_lub; lra.
Qed.

Lemma log_clipped (c e : R) :
  rnd floatx epsilon = Fin e -> 0 < e ->
  is_finite (flog rnd floatx (rnd floatx epsilon)) ->
  e <= c <= 1 ->
  exists l, flog rnd floatx (Fin c) = Fin l /\ l <= 0.
Proof.
  intros He Hpos Hfin Hc. rewrite He in Hfin. simpl in *.
  destruct (Rlt_dec 0 e); [|lra]. destruct (Rlt_dec 0 c); [|lra].
  assert (Hlow : ln e <= ln c) by (apply ln_le_mono; lra).
  assert (Hup : ln c <= 0) by (apply ln_nonpos; lra).
  pose proof (rnd_mono rnd Hrnd floatx _ _ Hlow) as Hle1.
  pose proof (rnd_mono rnd Hrnd floatx _ _ Hup) as Hle2.
  rewrite (rnd_zero rnd Hrnd) in Hle2.
  destruct (rnd floatx (ln e)) as [le| | |]; try done.
  destruct (rnd floatx (ln c)) as [l| | |]; simpl in *; try done.
  by exists l.
Qed.

Lemma product_nonpos (t l : fval) :
  fin_nonneg t -> (exists v, l = Fin v /\ v <= 0) ->
  fle (fmul rnd floatx t l) (Fin 0).
Proof.
  destruct t as [a| | |]; try done. simpl. intros Ha (v & -> & Hv). simpl.
  apply (rnd_nonpos rnd Hrnd). nra.
Qed.

Lemma fadd_nonpos (x y : fval) :
  fle x (Fin 0) -> fle y (Fin 0) -> fle (fadd rnd floatx x y) (Fin 0).
Proof.
  destruct x as [a| | |], y as [b| | |]; simpl; try done.
  intros Ha Hb. apply (rnd_nonpos rnd Hrnd). lra.
Qed.

Lemma fsum_nonpos (l : list fval) :
  Forall (fun x => fle x (Fin 0)) l -> fle (fsum rnd floatx l) (Fin 0).
Proof.
  induction 1 as [|x l Hx _ IH]; simpl; [lra|]. by apply fadd_nonpos.
Qed.

Lemma fneg_nonpos (x : fval) : fle x (Fin 0) -> nonneg (fneg x).
Proof. destruct x; simpl; try done. lra. Qed.

Lemma row_crossentropy_nonneg (p t : list fval) (e : R) :
  rnd floatx epsilon = Fin e -> 0 < e ->
  is_finite (flog rnd floatx (rnd floatx epsilon)) ->
  Forall (fun x => fin_nonneg x
                   /\ match x with
                      | Fin r => rnd floatx r = Fin r
                      | _ => True
                      end) p ->
  0 < rsum (real_of <$> p) ->
  Forall fin_nonneg t ->
  nonneg (row_crossentropy rnd epsilon floatx p t).
Proof.
  intros He Hpos Hlog Hp Hsum Ht. unfold row_crossentropy.
  apply fneg_nonpos, fsum_nonpos.
  apply (Forall_zip_with_both fin_nonneg
           (fun l => exists v, l = Fin v /\ v <= 0)); [| done |].
  - intros x y. apply product_nonpos.
  - unfold log_probs. cbn zeta.
    pose proof (row_sum_positive p Hp Hsum) as Hs.
    rewrite !Forall_fmap. eapply Forall_impl; [exact Hp|].
    intros x [Hx _]. simpl.
    destruct (clipped_range (fdiv rnd floatx x (fsum rnd floatx p)) e)
      as (c & -> & Hc); [done | done | by apply quotient_nonneg |].
    by apply (log_clipped c e).
Qed.

End Sign.

Lemma last_axis_exists {A} (sh : list A) : sh <> [] -> exists n, last sh = Some n.
Proof. intros Hne. by apply last_is_Some. Qed.

(** C1 (defect): the bounds of the clipping are cast to [_FLOATX], so that
    on tensors of the other dtype the docstring admits
    [categorical_crossentropy] raises [TypeError] at [tf.clip_by_value]
    instead of computing the four steps. *)
Theorem categorical_crossentropy_other_dtype
    (rnd : IEEE.DType -> R -> IEEE.fval) (epsilon : R) (floatx : IEEE.DType)
    (y_pred y_true : IEEE.Tensor) :
  IEEE.dtype y_pred <> floatx ->
  IEEE.shape y_pred <> [] ->
  IEEE.categorical_crossentropy rnd epsilon floatx y_pred y_true
  = IEEE.TypeError.
Proof.
  intros Hd Hrank. destruct (last_axis_exists _ Hrank) as [n Hlast].
  unfold IEEE.categorical_crossentropy, IEEE.tf.reduce_sum.
  rewrite Hlast, decide_True by done. cbn [mbind IEEE.outcome_bind].
  unfold IEEE.tf.div. cbn [IEEE.dtype IEEE.shape IEEE.data].
  rewrite !decide_True by done. cbn [mbind IEEE.outcome_bind].
  unfold IEEE.tf.clip_by_value, IEEE.tf.cast.
  cbn [IEEE.dtype IEEE.shape IEEE.data].
  rewrite decide_False; [done|]. intros [Heq _]. by apply Hd.
Qed.

Lemma categorical_crossentropy_other_dtype_witness :
  IEEE.categorical_crossentropy IEEE.exact (/ 10 ^ 10) IEEE.float32
    (IEEE.p_1x2 IEEE.float64) (IEEE.t_1x2 IEEE.float64)
  = IEEE.TypeError.
Proof.
  apply (categorical_crossentropy_other_dtype IEEE.exact (/ 10 ^ 10)
           IEEE.float32 (IEEE.p_1x2 IEEE.float64) (IEEE.t_1x2 IEEE.float64)).
  - simpl. discriminate.
  - simpl. discriminate.
Defined.

(** For tensors of the dtype [_FLOATX], of one shape and of rank 1 at
    least, [categorical_crossentropy] computes the four steps: each row
    divided by its sum, clipped into the bounds [epsilon] and
    [1 - epsilon] as cast to [_FLOATX], minus the sum over the last axis of
    [y_true * log], and the mean of that over the rows. *)
Theorem categorical_crossentropy_four_steps
    (rnd : IEEE.DType -> R -> IEEE.fval) (epsilon : R) (floatx : IEEE.DType)
    (y_pred y_true : IEEE.Tensor) :
  IEEE.dtype y_pred = floatx -> IEEE.dtype y_true = floatx ->
  IEEE.wf y_pred -> IEEE.wf y_true ->
  IEEE.shape y_pred = IEEE.shape y_true ->
  IEEE.shape y_pred <> [] ->
  IEEE.categorical_crossentropy rnd epsilon floatx y_pred y_true
  = IEEE.Ok (IEEE.fmean rnd floatx
               (zip_with (IEEE.row_crossentropy rnd epsilon floatx)
                         (IEEE.rows y_pred) (IEEE.rows y_true))).
Proof.
  intros Hdp Hdt Hp Ht Hs Hrank.
  destruct (last_axis_exists _ Hrank) as [n Hlast].
  by rewrite (categorical_crossentropy_rows rnd epsilon floatx _ _ n).
Qed.

Lemma categorical_crossentropy_four_steps_witness :
  IEEE.categorical_crossentropy IEEE.exact (/ 10 ^ 10) IEEE.float32
    (IEEE.p_1x2 IEEE.float32) (IEEE.t_1x2 IEEE.float32)
  = IEEE.Ok (IEEE.fmean IEEE.exact IEEE.float32
               (zip_with (IEEE.row_crossentropy IEEE.exact (/ 10 ^ 10)
                            IEEE.float32)
                         (IEEE.rows (IEEE.p_1x2 IEEE.float32))
                         (IEEE.rows (IEEE.t_1x2 IEEE.float32)))).
Proof.
  apply (categorical_crossentropy_four_steps IEEE.exact (/ 10 ^ 10)
           IEEE.float32 (IEEE.p_1x2 IEEE.float32) (IEEE.t_1x2 IEEE.float32));
    try reflexivity.
  simpl. discriminate.
Defined.

(** C4, as stated, fails on a batch without rows: every row there is is a
    probability distribution, the targets have no negative entry, and the
    mean over no row is NaN. *)
Lemma categorical_crossentropy_not_nonneg :
  Forall (fun r => Forall IEEE.fin_nonneg r
                   /\ rsum (IEEE.real_of <$> r) = 1)
         (IEEE.rows IEEE.empty_batch)
  /\ Forall IEEE.fin_nonneg (IEEE.data IEEE.empty_batch)
  /\ IEEE.categorical_crossentropy IEEE.exact (/ 10 ^ 10) IEEE.float32
       IEEE.empty_batch IEEE.empty_batch = IEEE.Ok IEEE.NaN.
Proof.
  split; [constructor|]. split; [constructor|].
  rewrite (categorical_crossentropy_rows _ _ _ _ _ 2) by done. f_equal.
  unfold IEEE.four_steps, IEEE.fmean, IEEE.exact. simpl.
  destruct (Req_dec_T 0 0); [|done]. unfold IEEE.inf_of_sign.
  destruct (Rlt_dec 0 0); [lra | done].
Qed.

(** C4 (amended): let [p] and [t] be tensors of the dtype [_FLOATX] and of
    one shape, [p] holding numbers of the dtype.  When every row of [p] has
    finite entries that are not negative and have a positive sum (as they
    have when the row sums to 1, exactly or up to rounding), [t] has
    finite entries that are not negative, and the batch holds at least one
    row, the scalar [categorical_crossentropy(p, t)] returns is [>= 0].
    [epsilon] lies strictly between 0 and 1 and its cast to the dtype is
    positive with a finite logarithm; the number of rows is finite in the
    dtype. *)
Theorem categorical_crossentropy_nonneg_typed
    (rnd : IEEE.DType -> R -> IEEE.fval) (epsilon : R) (floatx : IEEE.DType)
    (p t : IEEE.Tensor) :
  IEEE.rounding rnd ->
  0 < epsilon < 1 ->
  (exists e, rnd floatx epsilon = IEEE.Fin e /\ 0 < e) ->
  IEEE.is_finite (IEEE.flog rnd floatx (rnd floatx epsilon)) ->
  IEEE.dtype p = floatx -> IEEE.dtype t = floatx ->
  IEEE.wf p -> IEEE.wf t -> IEEE.shape p = IEEE.shape t ->
  IEEE.typed rnd p ->
  Forall (fun r => Forall IEEE.fin_nonneg r
                   /\ 0 < rsum (IEEE.real_of <$> r)) (IEEE.rows p) ->
  Forall IEEE.fin_nonneg (IEEE.data t) ->
  IEEE.rows p <> [] ->
  IEEE.is_finite (rnd floatx (INR (length (IEEE.rows p)))) ->
  exists v, IEEE.categorical_crossentropy rnd epsilon floatx p t = IEEE.Ok v
            /\ IEEE.nonneg v.
Proof.
  intros Hrnd Heps (e & He & Hpos) Hlog Hdp Hdt Hp Ht Hs Htyped Hrows Hnonneg
    Hne Hcount.
  destruct (last (IEEE.shape p)) as [n|] eqn:Hlast;
    [|by unfold IEEE.rows in Hne; rewrite Hlast in Hne].
  assert (Hlast_t : last (IEEE.shape t) = Some n) by (by rewrite <- Hs).
  assert (Hlen : length (IEEE.rows p) = length (IEEE.rows t)).
  { by rewrite (ieee_rows_length _ n), (ieee_rows_length _ n), Hs. }
  rewrite (categorical_crossentropy_rows rnd epsilon floatx _ _ n) by done.
  eexists. split; [done|]. unfold IEEE.four_steps.
  apply (fmean_nonneg rnd Hrnd).
  - revert Hne. by apply zip_with_nil_inv_same_length.
  - apply (Forall_zip_with_both
             (fun r => Forall (fun x =>
                                 IEEE.fin_nonneg x
                                 /\ match x with
                                    | IEEE.Fin r => rnd floatx r = IEEE.Fin r
                                    | _ => True
                                    end) r
                       /\ 0 < rsum (IEEE.real_of <$> r))
             (Forall IEEE.fin_nonneg)).
    + intros r1 r2 [Hr1 Hsum] Hr2.
      by apply (row_crossentropy_nonneg rnd epsilon floatx Hrnd Heps r1 r2 e).
    + unfold IEEE.typed in Htyped. rewrite Hdp in Htyped.
      apply ieee_rows_Forall in Htyped.
      apply (Forall_and_2 _ _ _ Hrows) in Htyped.
      eapply Forall_impl; [exact Htyped|].
      intros r [[Hr Hsum] Hrep]. split; [|done]. by apply Forall_and_2.
    + by apply ieee_rows_Forall.
  - by rewrite length_zip_with, <- Hlen, Nat.min_id.
Qed.

Lemma categorical_crossentropy_nonneg_typed_witness :
  exists v,
    IEEE.categorical_crossentropy IEEE.exact (1 / 10) IEEE.float32
      (IEEE.p_1x2 IEEE.float32) (IEEE.t_1x2 IEEE.float32) = IEEE.Ok v
    /\ IEEE.nonneg v.
Proof.
  apply (categorical_crossentropy_nonneg_typed IEEE.exact (1 / 10)
           IEEE.float32 (IEEE.p_1x2 IEEE.float32) (IEEE.t_1x2 IEEE.float32));
    try reflexivity.
  - apply exact_rounding.
  - lra.
  - exists (1 / 10). split; [reflexivity | lra].
  - unfold IEEE.exact. simpl. destruct (Rlt_dec 0 (1 / 10)); [exact I | lra].
  - unfold IEEE.typed. simpl.
    repeat (apply List.Forall_cons; [reflexivity|]). apply List.Forall_nil.
  - unfold IEEE.rows. simpl. apply List.Forall_cons; [|apply List.Forall_nil].
    split; [|unfold rsum; simpl; lra].
    repeat (apply List.Forall_cons; [simpl; lra|]). apply List.Forall_nil.
  - simpl. repeat (apply List.Forall_cons; [simpl; lra|]). apply List.Forall_nil.
  - unfold IEEE.rows. simpl. discriminate.
Defined.
